(** * Ralph: the agent loop of [ralph.sh] and [ralph.ps1]

    The two scripts run an external coding agent in a loop.  Each pass
    captures the agent's output, looks for a connection-error signature and
    for the completion marker, and then retries, stops or moves on to the
    next iteration.

    This file embeds the main loop of each script (Modules [Sh] and [Ps1]),
    the state machine that the design document describes (Module [Machine]),
    and proves the documented properties of the loop.

    Modelling conventions.
    - The text captured from the agent is a [string]; the agents are not
      modelled, a run is a function of the list of texts that the successive
      invocations return.
    - The shell variables [ITERATION] and [CONSECUTIVE_ERRORS] are integers
      ([Z]).  In [ralph.sh] the iteration counter lives in bash's 64-bit
      arithmetic: [$((ITERATION + 1))] wraps around, and the [[ -le ]] of the
      loop fails on a budget that is not a 64-bit integer.  [ralph.ps1] takes
      an [int] budget and PowerShell widens a counter that overflows, so its
      counters are plain integers.  The consecutive-error counter never
      exceeds 3 ([machine_error_counter]), its sums are written without
      wrap-around.
    - [echo]/[Write-Host] lines and [sleep]s are recorded as events. *)

From Stdlib Require Import ZArith List String Ascii Bool Lia.
Import ListNotations.

Local Open Scope Z_scope.

(* ================================================================== *)
(** * Text matching *)

(** The line feed, which separates the lines that [grep] and PowerShell
    look at one by one. *)
Definition LF : ascii := "010"%char.

(** [is_prefix p s]: the text [s] starts with [p]. *)
Fixpoint is_prefix (p s : string) : bool :=
  match p, s with
  | EmptyString, _ => true
  | String _ _, EmptyString => false
  | String a p', String b s' => Ascii.eqb a b && is_prefix p' s'
  end.

(** [contains needle hay]: [needle] occurs somewhere in [hay]. *)
Fixpoint contains (needle hay : string) : bool :=
  is_prefix needle hay
  || match hay with
     | EmptyString => false
     | String _ rest => contains needle rest
     end.

(** The lines of a text: the pieces between line feeds. *)
Fixpoint lines (text : string) : list string :=
  match text with
  | EmptyString => [EmptyString]
  | String c rest =>
      if Ascii.eqb c LF then EmptyString :: lines rest
      else match lines rest with
           | [] => [String c EmptyString]
           | l :: ls => String c l :: ls
           end
  end.

(** ASCII case folding, as a case-insensitive regular expression applies it
    to the letters A-Z. *)
Definition to_lower (c : ascii) : ascii :=
  let n := nat_of_ascii c in
  if (Nat.leb 65 n && Nat.leb n 90)%bool then ascii_of_nat (n + 32) else c.

Fixpoint lower (s : string) : string :=
  match s with
  | EmptyString => EmptyString
  | String c rest => String (to_lower c) (lower rest)
  end.

(** [Substring p s]: the specification of "[p] is a substring of [s]",
    compared character by character (case-sensitively). *)
Definition Substring (p s : string) : Prop :=
  exists before after : string, s = (before ++ p ++ after)%string.

(* ================================================================== *)
(** * Data model shared by the two scripts *)

(** The two counters of the loop. *)
Record RunState : Type := mkRunState {
  ITERATION : Z;
  CONSECUTIVE_ERRORS : Z
}.

(** What the loop prints. *)
Inductive Message : Type :=
| ConnectionErrorDetected (consecutive : Z)
    (* "Connection error detected ($CONSECUTIVE_ERRORS consecutive)" *)
| TooManyErrors
    (* "Too many consecutive connection errors. Stopping."
       "   Check your network connection and $WORKER_NAME status." *)
| WaitingBeforeRetry (seconds : Z)
    (* "   Waiting ${WAIT_TIME}s before retry..." *)
| CompletedAllTasks (iteration max : Z)
    (* "Ralph completed all tasks!"
       "Completed at iteration $ITERATION of $MAX_ITERATIONS" *)
| IterationComplete (iteration : Z)
    (* "Iteration $ITERATION complete. Continuing..." *)
| ReachedMaxIterations (max : Z).
    (* "Ralph reached max iterations ($MAX_ITERATIONS) without completing
        all tasks."  "Check $PROGRESS_FILE for status." *)

(** The observable actions of the loop, in order. *)
Inductive Event : Type :=
| Banner (iteration max : Z)   (* "  Ralph Iteration $ITERATION of $MAX_ITERATIONS" *)
| RunAgent                     (* one invocation of the agent *)
| Echo (m : Message)
| Sleep (seconds : Z).

(** The result of one pass through the loop body: go back to the loop test
    with the new counters ([continue] and the end of the body both do), or
    leave the script with an exit code. *)
Inductive Outcome : Type :=
| Continue (s : RunState)
| Exit (code : Z) (s : RunState).

(** How a run over a finite list of agent outputs stands at its end: the
    script has exited, or it is inside the loop waiting for the output of the
    next invocation. *)
Inductive Status : Type :=
| AwaitingAgent
| Exited (code : Z).

Record Run : Type := mkRun {
  events : list Event;      (* everything done so far *)
  states : list RunState;   (* the counters at the start of each pass made *)
  final : RunState;         (* the counters when the run stopped *)
  status : Status
}.

(** [after evs s r]: the run [r] preceded by a pass that started with the
    counters [s] and did [evs]. *)
Definition after (evs : list Event) (s : RunState) (r : Run) : Run :=
  {| events := evs ++ events r;
     states := s :: states r;
     final := final r;
     status := status r |}.

Definition is_RunAgent (e : Event) : bool :=
  match e with RunAgent => true | _ => false end.

(** Number of agent invocations of a run. *)
Definition invocations (r : Run) : nat :=
  List.length (filter is_RunAgent (events r)).

(** The three ways a pass can classify the agent's output. *)
Inductive Class : Type :=
| TransientError
| Completion
| ContinueLoop.

(** The counters before the first pass: [CONSECUTIVE_ERRORS=0], [ITERATION=1]. *)
Definition initial : RunState :=
  {| ITERATION := 1; CONSECUTIVE_ERRORS := 0 |}.

(** The value that bash's 64-bit arithmetic gives for the integer [x]. *)
Definition wrap64 (x : Z) : Z := (x + 2 ^ 63) mod 2 ^ 64 - 2 ^ 63.

(** The integers that bash can read as a number: [-2^63 .. 2^63 - 1]. *)
Definition in_int64 (x : Z) : bool :=
  ((- 2 ^ 63 <=? x) && (x <=? 2 ^ 63 - 1))%bool.

(* ================================================================== *)
(** * ralph.sh *)

Module Sh.

Definition MAX_RETRIES : Z := 3.
Definition RETRY_DELAY : Z := 10.

(** The alternatives of the extended regular expression of line 311.  They
    are made of letters and spaces only, so each one matches exactly the
    texts that contain it. *)
Definition connection_error_pattern : list string :=
  [ "ConnectError"; "ETIMEDOUT"; "ECONNRESET"; "ENOTFOUND";
    "connection refused"; "Connection refused" ]%string.

(** The pattern of line 335; [<], [>] and [/] are ordinary characters of a
    basic regular expression. *)
Definition completion_pattern : list string :=
  [ "<promise>COMPLETE</promise>" ]%string.

(** [echo "$OUTPUT" | grep -q pattern]: some line of the text has a match
    of one of the alternatives. *)
Definition grep_q (alternatives : list string) (OUTPUT : string) : bool :=
  existsb (fun line => existsb (fun p => contains p line) alternatives)
          (lines OUTPUT).

(** [[ a -le b ]]: the comparison of two integers.  With an operand that is
    not a 64-bit integer the command fails ("integer expression expected",
    status 2), which for the [while] of line 301 is a test that does not
    hold. *)
Definition test_le (a b : Z) : bool :=
  (in_int64 a && in_int64 b && (a <=? b))%bool.

(** One pass through the body of the [while] loop (lines 302-344), given
    the text that [run_agent] returned. *)
Definition loop_body (MAX_ITERATIONS : Z) (OUTPUT : string) (s : RunState)
  : list Event * Outcome :=
  let start := [Banner (ITERATION s) MAX_ITERATIONS; RunAgent] in
  if grep_q connection_error_pattern OUTPUT then
    let CONSECUTIVE_ERRORS' := CONSECUTIVE_ERRORS s + 1 in
    let s' := {| ITERATION := ITERATION s;
                 CONSECUTIVE_ERRORS := CONSECUTIVE_ERRORS' |} in
    if CONSECUTIVE_ERRORS' >=? MAX_RETRIES then
      (start ++ [Echo (ConnectionErrorDetected CONSECUTIVE_ERRORS');
                 Echo TooManyErrors],
       Exit 1 s')
    else
      let WAIT_TIME := RETRY_DELAY * CONSECUTIVE_ERRORS' in
      (start ++ [Echo (ConnectionErrorDetected CONSECUTIVE_ERRORS');
                 Echo (WaitingBeforeRetry WAIT_TIME);
                 Sleep WAIT_TIME],
       Continue s')
  else
    let s0 := {| ITERATION := ITERATION s; CONSECUTIVE_ERRORS := 0 |} in
    if grep_q completion_pattern OUTPUT then
      (start ++ [Echo (CompletedAllTasks (ITERATION s) MAX_ITERATIONS)],
       Exit 0 s0)
    else
      (start ++ [Echo (IterationComplete (ITERATION s)); Sleep 2],
       Continue {| ITERATION := wrap64 (ITERATION s + 1);
                  CONSECUTIVE_ERRORS := 0 |}).

(** The [while] loop and the lines after it (301-350).  [outputs] holds
    what the successive calls of [run_agent] return. *)
Fixpoint main_loop (MAX_ITERATIONS : Z) (outputs : list string)
                   (s : RunState) : Run :=
  if test_le (ITERATION s) MAX_ITERATIONS then
    match outputs with
    | [] => {| events := []; states := []; final := s;
               status := AwaitingAgent |}
    | OUTPUT :: rest =>
        match loop_body MAX_ITERATIONS OUTPUT s with
        | (evs, Exit code s') =>
            {| events := evs; states := [s]; final := s';
               status := Exited code |}
        | (evs, Continue s') =>
            after evs s (main_loop MAX_ITERATIONS rest s')
        end
    end
  else
    {| events := [Echo (ReachedMaxIterations MAX_ITERATIONS)];
       states := []; final := s; status := Exited 1 |}.

(** The script from line 296 on. *)
Definition ralph (MAX_ITERATIONS : Z) (outputs : list string) : Run :=
  main_loop MAX_ITERATIONS outputs initial.

(** The branch of the loop body that a text selects. *)
Definition classify (OUTPUT : string) : Class :=
  if grep_q connection_error_pattern OUTPUT then TransientError
  else if grep_q completion_pattern OUTPUT then Completion
  else ContinueLoop.

End Sh.

(* ================================================================== *)
(** * ralph.ps1 *)

Module Ps1.

Definition MaxRetries : Z := 3.
Definition RetryDelay : Z := 10.

(** The alternatives of the regular expression of line 276. *)
Definition connection_error_pattern : list string :=
  [ "ConnectError"; "ETIMEDOUT"; "ECONNRESET"; "ENOTFOUND";
    "connection refused"; "Connection refused" ]%string.

(** The regular expression of line 297. *)
Definition completion_pattern : list string :=
  [ "<promise>COMPLETE</promise>" ]%string.

(** What [Invoke-Agent] hands to the loop: the lines of the agent's text,
    once as the output of the [Tee-Object] pipeline and once more through
    [return $Output]. *)
Definition Invoke_Agent (text : string) : list string :=
  (lines text ++ lines text)%list.

(** [$Output -match pattern] on an array keeps the elements that match and
    the [if] takes the branch when something is left.  PowerShell's
    [-match] ignores case. *)
Definition op_match (Output : list string) (alternatives : list string)
  : bool :=
  match filter (fun line =>
                  existsb (fun p => contains (lower p) (lower line))
                          alternatives) Output
  with
  | [] => false
  | _ :: _ => true
  end.

(** One pass through the body of the [while] loop (lines 267-306). *)
Definition loop_body (MaxIterations : Z) (text : string) (s : RunState)
  : list Event * Outcome :=
  let start := [Banner (ITERATION s) MaxIterations; RunAgent] in
  let Output := Invoke_Agent text in
  if op_match Output connection_error_pattern then
    let ConsecutiveErrors := CONSECUTIVE_ERRORS s + 1 in
    let s' := {| ITERATION := ITERATION s;
                 CONSECUTIVE_ERRORS := ConsecutiveErrors |} in
    if ConsecutiveErrors >=? MaxRetries then
      (start ++ [Echo (ConnectionErrorDetected ConsecutiveErrors);
                 Echo TooManyErrors],
       Exit 1 s')
    else
      let WaitTime := RetryDelay * ConsecutiveErrors in
      (start ++ [Echo (ConnectionErrorDetected ConsecutiveErrors);
                 Echo (WaitingBeforeRetry WaitTime);
                 Sleep WaitTime],
       Continue s')
  else
    let s0 := {| ITERATION := ITERATION s; CONSECUTIVE_ERRORS := 0 |} in
    if op_match Output completion_pattern then
      (start ++ [Echo (CompletedAllTasks (ITERATION s) MaxIterations)],
       Exit 0 s0)
    else
      (start ++ [Echo (IterationComplete (ITERATION s)); Sleep 2],
       Continue {| ITERATION := ITERATION s + 1; CONSECUTIVE_ERRORS := 0 |}).

(** The [while] loop and the lines after it (266-312). *)
Fixpoint main_loop (MaxIterations : Z) (outputs : list string)
                   (s : RunState) : Run :=
  if ITERATION s <=? MaxIterations then
    match outputs with
    | [] => {| events := []; states := []; final := s;
               status := AwaitingAgent |}
    | text :: rest =>
        match loop_body MaxIterations text s with
        | (evs, Exit code s') =>
            {| events := evs; states := [s]; final := s';
               status := Exited code |}
        | (evs, Continue s') =>
            after evs s (main_loop MaxIterations rest s')
        end
    end
  else
    {| events := [Echo (ReachedMaxIterations MaxIterations)];
       states := []; final := s; status := Exited 1 |}.

(** The script from line 261 on. *)
Definition ralph (MaxIterations : Z) (outputs : list string) : Run :=
  main_loop MaxIterations outputs initial.

(** The branch of the loop body that a text selects. *)
Definition classify (text : string) : Class :=
  if op_match (Invoke_Agent text) connection_error_pattern then TransientError
  else if op_match (Invoke_Agent text) completion_pattern then Completion
  else ContinueLoop.

End Ps1.

(* ================================================================== *)
(** * The state machine of the design document *)

(** The transition algorithm of the design document (section 4.1), written
    once for any way of classifying an agent output and for any way of
    counting the iterations: [enter] is the test of the loop on the
    iteration counter, [next] the counter after a plain iteration.  The
    design document counts on the integers ([counts_up_to], [plus_one]).
    The scripts are compared with the machine below ([sh_refines_machine],
    [ps1_refines_machine]). *)
Module Machine.
Section Driver.

Variable classify : string -> Class.
Variable enter : Z -> bool.
Variable next : Z -> Z.
Variable maxIterations : Z.

Definition retryBudget : Z := 3.
Definition baseDelay : Z := 10.
Definition interIterationDelay : Z := 2.

(** Steps 1 to 5: one invocation and what follows from its output. *)
Definition transition (output : string) (s : RunState)
  : list Event * Outcome :=
  let iteration := ITERATION s in
  let invoke := [Banner iteration maxIterations; RunAgent] in
  match classify output with
  | TransientError =>
      let consecutiveErrors := CONSECUTIVE_ERRORS s + 1 in
      let s' := {| ITERATION := iteration;
                   CONSECUTIVE_ERRORS := consecutiveErrors |} in
      if consecutiveErrors >=? retryBudget then
        (invoke ++ [Echo (ConnectionErrorDetected consecutiveErrors);
                    Echo TooManyErrors],
         Exit 1 s')
      else
        let delay := baseDelay * consecutiveErrors in
        (invoke ++ [Echo (ConnectionErrorDetected consecutiveErrors);
                    Echo (WaitingBeforeRetry delay);
                    Sleep delay],
         Continue s')
  | Completion =>
      (invoke ++ [Echo (CompletedAllTasks iteration maxIterations)],
       Exit 0 {| ITERATION := iteration; CONSECUTIVE_ERRORS := 0 |})
  | ContinueLoop =>
      (invoke ++ [Echo (IterationComplete iteration);
                  Sleep interIterationDelay],
       Continue {| ITERATION := next iteration; CONSECUTIVE_ERRORS := 0 |})
  end.

(** Steps 1 to 6 repeated over the outputs of the successive invocations. *)
Fixpoint run (outputs : list string) (s : RunState) : Run :=
  if enter (ITERATION s) then
    match outputs with
    | [] => {| events := []; states := []; final := s;
               status := AwaitingAgent |}
    | output :: rest =>
        match transition output s with
        | (evs, Exit code s') =>
            {| events := evs; states := [s]; final := s';
               status := Exited code |}
        | (evs, Continue s') => after evs s (run rest s')
        end
    end
  else
    {| events := [Echo (ReachedMaxIterations maxIterations)];
       states := []; final := s; status := Exited 1 |}.

End Driver.
End Machine.

(** The terminal states of the design document, as a run shows them: the
    exit code and the last message printed. *)
Inductive Terminal : Type :=
| Succeeded
| FailedMaxIterations
| FailedTooManyErrors.

Definition terminal (r : Run) : option Terminal :=
  match status r with
  | AwaitingAgent => None
  | Exited code =>
      if code =? 0 then Some Succeeded
      else match last (events r) RunAgent with
           | Echo TooManyErrors => Some FailedTooManyErrors
           | Echo (ReachedMaxIterations _) => Some FailedMaxIterations
           | _ => None
           end
  end.

(** The two scripts. *)
Inductive Script : Type :=
| ralph_sh
| ralph_ps1.

Definition run_script (sc : Script) : Z -> list string -> Run :=
  match sc with
  | ralph_sh => Sh.ralph
  | ralph_ps1 => Ps1.ralph
  end.

Definition classification (sc : Script) : string -> Class :=
  match sc with
  | ralph_sh => Sh.classify
  | ralph_ps1 => Ps1.classify
  end.

(** Counting on the integers, as the design document and [ralph.ps1] do. *)
Definition counts_up_to (maxIterations : Z) : Z -> bool :=
  fun iteration => iteration <=? maxIterations.

Definition plus_one : Z -> Z := fun iteration => iteration + 1.

(** The loop test and the next iteration of each script. *)
Definition enter_of (sc : Script) (MAX : Z) : Z -> bool :=
  match sc with
  | ralph_sh => fun iteration => Sh.test_le iteration MAX
  | ralph_ps1 => counts_up_to MAX
  end.

Definition next_of (sc : Script) : Z -> Z :=
  match sc with
  | ralph_sh => fun iteration => wrap64 (iteration + 1)
  | ralph_ps1 => plus_one
  end.

(** The budgets that the loop test of a script can read: [ralph.sh]
    compares 64-bit integers. *)
Definition budget_fits (sc : Script) (MAX : Z) : Prop :=
  match sc with
  | ralph_sh => MAX < 2 ^ 63
  | ralph_ps1 => True
  end.

(** The budgets that a script can count past: [ralph.sh] counts on 64 bits,
    so the budget has to leave room for one more. *)
Definition budget_counts (sc : Script) (MAX : Z) : Prop :=
  match sc with
  | ralph_sh => MAX < 2 ^ 63 - 1
  | ralph_ps1 => True
  end.

(** The connection-error signature and the completion marker of the design
    document, as substrings of the output.  "connection refused in either
    case" stands for the two spellings that the scripts list, with a small
    and with a capital C. *)
Definition error_signature : list string :=
  [ "ConnectError"; "ETIMEDOUT"; "ECONNRESET"; "ENOTFOUND";
    "connection refused"; "Connection refused" ]%string.

Definition completion_marker : string := "<promise>COMPLETE</promise>"%string.

Definition matches_error_signature (output : string) : Prop :=
  exists p, In p error_signature /\ Substring p output.

Definition has_completion_marker (output : string) : Prop :=
  Substring completion_marker output.

(** The first [n] outputs of an endless supply of agent outputs. *)
Definition first_outputs (agent : nat -> string) (n : nat) : list string :=
  map agent (seq 0 n).

(* ================================================================== *)
(** * ralph.sh before the loop *)

(** Lines 15-144: the command line, the check of the worker and of the
    commands it needs, and the command that [run_agent] launches. *)
Module ShStart.

(** The two variables set from the command line. *)
Record Options : Type := mkOptions {
  WORKER : string;
  MAX_ITERATIONS : string
}.

(** What the script prints when it stops before the loop. *)
Inductive Notice : Type :=
| Usage
    (* "Usage: ./ralph.sh [--worker amp|cursor] [max_iterations]" ... *)
| UnknownOption (arg : string)
    (* "Unknown option: $1"  "Use --help for usage" *)
| CommandNotFound (command : string)
    (* "Error: 'agent' command not found. ..." *)
| UnknownWorker (worker : string).
    (* "Error: Unknown worker '$WORKER'"  "Available workers: cursor, amp" *)

(** The script goes on with a value, or has exited with a code. *)
Inductive Started (A : Type) : Type :=
| Going (a : A)
| Stopped (code : Z) (printed : list Notice).

Arguments Going {A} a.
Arguments Stopped {A} code printed.

(** [WORKER="cursor"], [MAX_ITERATIONS=10]. *)
Definition defaults : Options :=
  {| WORKER := "cursor"; MAX_ITERATIONS := "10" |}.

Definition is_digit (c : ascii) : bool :=
  let n := nat_of_ascii c in (Nat.leb 48 n && Nat.leb n 57)%bool.

Fixpoint all_digits (word : string) : bool :=
  match word with
  | EmptyString => true
  | String c rest => is_digit c && all_digits rest
  end.

(** [[[ "$1" =~ ^[0-9]+$ ]]]: one digit or more and nothing else. *)
Definition is_number (word : string) : bool :=
  match word with
  | EmptyString => false
  | String _ _ => all_digits word
  end.

(** The [while [[ $# -gt 0 ]]] loop of lines 18-50 over the positional
    parameters.  [shift 2] fails when [--worker] is the last word, and under
    [set -e] the script then exits with status 1 without a message. *)
Fixpoint parse_arguments (args : list string) (o : Options)
  : Started Options :=
  match args with
  | [] => Going o
  | word :: rest =>
      if ((word =? "--worker") || (word =? "-w"))%string then
        match rest with
        | [] => Stopped 1 []
        | value :: rest' =>
            parse_arguments rest'
              {| WORKER := value; MAX_ITERATIONS := MAX_ITERATIONS o |}
        end
      else if ((word =? "--help") || (word =? "-h"))%string then
        Stopped 0 [Usage]
      else if is_number word then
        parse_arguments rest
          {| WORKER := WORKER o; MAX_ITERATIONS := word |}
      else
        Stopped 1 [UnknownOption word]
  end.

(** Lines 59-92: the [case $WORKER] that sets [WORKER_NAME], then the check
    for [jq].  [command_v c] says whether [command -v c] succeeds. *)
Definition worker_configuration (command_v : string -> bool) (WORKER : string)
  : Started string :=
  let checked :=
    if (WORKER =? "cursor")%string then
      if command_v "agent"%string then Going "Cursor CLI"%string
      else Stopped 1 [CommandNotFound "agent"]
    else if (WORKER =? "amp")%string then
      if command_v "amp"%string then Going "Amp"%string
      else Stopped 1 [CommandNotFound "amp"]
    else Stopped 1 [UnknownWorker WORKER] in
  match checked with
  | Going WORKER_NAME =>
      if command_v "jq"%string then Going WORKER_NAME
      else Stopped 1 [CommandNotFound "jq"]
  | Stopped code printed => Stopped code printed
  end.





(** Lines 15-92 together: the options and the worker's name, or the exit. *)
Definition startup (command_v : string -> bool) (args : list string)
  : Started (Options * string) :=
  match parse_arguments args defaults with
  | Going o =>
      match worker_configuration command_v (WORKER o) with
      | Going WORKER_NAME => Going (o, WORKER_NAME)
      | Stopped code printed => Stopped code printed
      end
  | Stopped code printed => Stopped code printed
  end.

End ShStart.

(** Lines 239-279: the archive of the previous run, [.last-branch] and
    [progress.txt].  [mkdir], [cp] and the redirections are taken to
    succeed. *)
Module ShArchive.

(** [$(...)]: the output of a command without its trailing line feeds. *)
Fixpoint command_substitution (output : string) : string :=
  match output with
  | EmptyString => EmptyString
  | String c rest =>
      match command_substitution rest with
      | EmptyString => if Ascii.eqb c LF then EmptyString
                       else String c EmptyString
      | String _ _ as kept => String c kept
      end
  end.

Definition is_option_letter (c : ascii) : bool :=
  (Ascii.eqb c "n" || Ascii.eqb c "e" || Ascii.eqb c "E")%bool.

Fixpoint option_letters (s : string) : bool :=
  match s with
  | EmptyString => true
  | String c rest => is_option_letter c && option_letters rest
  end.

(** A word that the [echo] builtin takes for options: [-] and then one or
    more of [n], [e], [E]. *)
Definition is_echo_option (arg : string) : bool :=
  match arg with
  | String "-" (String c rest) => option_letters (String c rest)
  | _ => false
  end.

(** What [echo "$arg"] writes. *)
Definition echo (arg : string) : string :=
  if is_echo_option arg then
    if contains "n" arg then EmptyString else String LF EmptyString
  else (arg ++ String LF EmptyString)%string.

Fixpoint drop (n : nat) (s : string) : string :=
  match n, s with
  | O, _ => s
  | S _, EmptyString => EmptyString
  | S n', String _ rest => drop n' rest
  end.

Definition strip_prefix (p line : string) : string :=
  if is_prefix p line then drop (String.length p) line else line.

Fixpoint unlines (ls : list string) : string :=
  match ls with
  | [] => EmptyString
  | [l] => l
  | l :: rest => (l ++ String LF (unlines rest))%string
  end.

(** [sed 's|^ralph/||']: the prefix is taken off every line that has it. *)
Definition sed_strip_ralph (input : string) : string :=
  unlines (map (strip_prefix "ralph/") (lines input)).

(** [prd.json]: its text, and what
    [jq -r '.branchName // empty' "$PRD_FILE" 2>/dev/null || echo ""]
    writes for it. *)
Record PrdFile : Type := mkPrdFile {
  prd_text : string;
  jq_branchName : string
}.

(** The three files of the project that the script reads and writes; [None]
    for a file that does not exist. *)
Record Files : Type := mkFiles {
  prd_json : option PrdFile;
  last_branch_file : option string;
  progress_txt : option string
}.

(** A copy into the archive: the folder made by [mkdir -p], and the files
    that [cp] put there. *)
Inductive Action : Type :=
| Archived (folder : string) (prd_copy : string) (progress_copy : option string).

Definition nonempty (s : string) : bool :=
  match s with EmptyString => false | String _ _ => true end.

(** The four [echo] lines that start a progress file; [now] is [$(date)]. *)
Definition progress_header (now WORKER_NAME : string) : string :=
  (echo "# Ralph Progress Log" ++ echo ("Started: " ++ now)
   ++ echo ("Worker: " ++ WORKER_NAME) ++ echo "---")%string.

Definition FOLDER_NAME (LAST_BRANCH : string) : string :=
  command_substitution (sed_strip_ralph (echo LAST_BRANCH)).

(** Lines 239-263.  [DATE] is [$(date +%Y-%m-%d)]. *)
Definition archive_previous_run (ARCHIVE_DIR DATE now WORKER_NAME : string)
           (fs : Files) : Files * list Action :=
  match prd_json fs, last_branch_file fs with
  | Some prd, Some last =>
      let CURRENT_BRANCH := command_substitution (jq_branchName prd) in
      let LAST_BRANCH := command_substitution last in
      if (nonempty CURRENT_BRANCH && nonempty LAST_BRANCH
          && negb (CURRENT_BRANCH =? LAST_BRANCH)%string)%bool then
        let ARCHIVE_FOLDER :=
          (ARCHIVE_DIR ++ "/" ++ DATE ++ "-" ++ FOLDER_NAME LAST_BRANCH)%string in
        ({| prd_json := prd_json fs;
            last_branch_file := last_branch_file fs;
            progress_txt := Some (progress_header now WORKER_NAME) |},
         [Archived ARCHIVE_FOLDER (prd_text prd) (progress_txt fs)])
      else (fs, [])
  | _, _ => (fs, [])
  end.

(** Lines 265-271. *)
Definition track_current_branch (fs : Files) : Files :=
  match prd_json fs with
  | Some prd =>
      let CURRENT_BRANCH := command_substitution (jq_branchName prd) in
      if nonempty CURRENT_BRANCH then
        {| prd_json := prd_json fs;
           last_branch_file := Some (echo CURRENT_BRANCH);
           progress_txt := progress_txt fs |}
      else fs
  | None => fs
  end.

(** Lines 273-279. *)
Definition initialize_progress (now WORKER_NAME : string) (fs : Files)
  : Files :=
  match progress_txt fs with
  | Some _ => fs
  | None =>
      {| prd_json := prd_json fs;
         last_branch_file := last_branch_file fs;
         progress_txt := Some (progress_header now WORKER_NAME) |}
  end.

(** Lines 239-279 in order. *)
Definition bookkeeping (ARCHIVE_DIR DATE now WORKER_NAME : string) (fs : Files)
  : Files * list Action :=
  let (fs1, done) := archive_previous_run ARCHIVE_DIR DATE now WORKER_NAME fs in
  (initialize_progress now WORKER_NAME (track_current_branch fs1), done).

End ShArchive.

(** Lines 150-163: the search for the directory of [prd.json]. *)
Module ShProject.

(** A directory by the components of its absolute path: [[]] is [/],
    [["home"; "me"]] is [/home/me].  [SCRIPT_DIR] is the value that line 52
    gives to the variable, the output of [pwd] read through [$(...)]. *)
Definition Path : Type := list string.

(** What is left of a path read back through [$(...)]: the line feeds at
    its end are gone, and a last component made of line feeds only leaves
    the directory above it, written with a [/] at its end. *)
Definition substituted (p : Path) : Path :=
  match p with
  | [] => []
  | _ :: _ =>
      match ShArchive.command_substitution (last p EmptyString) with
      | EmptyString => removelast p
      | String _ _ as name => removelast p ++ [name]
      end
  end.

(** [$(dirname "$PROJECT_ROOT")]. *)
Definition dirname (p : Path) : Path := substituted (removelast p).

(** The [for i in {0..3}] loop, [tries] passes being left.  [prd_json_in d]
    says whether [d/prd.json] is a file. *)
Fixpoint search (tries : nat) (prd_json_in : Path -> bool)
                (SCRIPT_DIR PROJECT_ROOT : Path) : Path :=
  match tries with
  | O => PROJECT_ROOT
  | S tries' =>
      if prd_json_in PROJECT_ROOT then PROJECT_ROOT
      else match PROJECT_ROOT with
           | [] => SCRIPT_DIR
           | _ :: _ =>
               search tries' prd_json_in SCRIPT_DIR (dirname PROJECT_ROOT)
           end
  end.

Definition PROJECT_ROOT (prd_json_in : Path -> bool) (SCRIPT_DIR : Path)
  : Path :=
  search 4 prd_json_in SCRIPT_DIR SCRIPT_DIR.

(** The directory that the search looks at in its pass number [k]. *)
Definition parent (k : nat) (p : Path) : Path := Nat.iter k dirname p.

End ShProject.

(** The signature and the marker when the case of the letters is ignored,
    as [-match] does. *)
Definition matches_error_signature_ignoring_case (output : string) : Prop :=
  exists p, In p error_signature /\ Substring (lower p) (lower output).

Definition has_completion_marker_ignoring_case (output : string) : Prop :=
  Substring (lower completion_marker) (lower output).

(** An output without the signature, and one without the marker, as each
    script reads them: [ralph.sh] letter for letter, [ralph.ps1] whatever
    the case of the letters. *)
Definition free_of_signature (sc : Script) (output : string) : Prop :=
  match sc with
  | ralph_sh => ~ matches_error_signature output
  | ralph_ps1 => ~ matches_error_signature_ignoring_case output
  end.

Definition free_of_marker (sc : Script) (output : string) : Prop :=
  match sc with
  | ralph_sh => ~ has_completion_marker output
  | ralph_ps1 => ~ has_completion_marker_ignoring_case output
  end.

(* ================================================================== *)
(** * The command lines that ralph.sh accepts *)

(** A well-formed piece of the command line: an iteration count, or a worker
    flag with the word after it. *)
Inductive Item : Type :=
| Count (digits : string)
| WorkerFlag (flag value : string).

Definition is_worker_flag (word : string) : bool :=
  ((word =? "--worker") || (word =? "-w"))%string.

Definition is_help_flag (word : string) : bool :=
  ((word =? "--help") || (word =? "-h"))%string.

Definition well_formed (i : Item) : bool :=
  match i with
  | Count digits => ShStart.is_number digits
  | WorkerFlag flag _ => is_worker_flag flag
  end.

Definition words (i : Item) : list string :=
  match i with
  | Count digits => [digits]
  | WorkerFlag flag value => [flag; value]
  end.

(** What an item does to the options: the last count and the last worker
    are the ones that stay. *)
Definition set_option (o : ShStart.Options) (i : Item) : ShStart.Options :=
  match i with
  | Count digits =>
      {| ShStart.WORKER := ShStart.WORKER o;
         ShStart.MAX_ITERATIONS := digits |}
  | WorkerFlag _ value =>
      {| ShStart.WORKER := value;
         ShStart.MAX_ITERATIONS := ShStart.MAX_ITERATIONS o |}
  end.

(* ================================================================== *)
(** * Measures of a run *)

Definition is_error (c : Class) : bool :=
  match c with TransientError => true | _ => false end.

Definition is_continue (c : Class) : bool :=
  match c with ContinueLoop => true | _ => false end.

(** Number of elements at the front of a list that satisfy [f]. *)
Fixpoint leading {A : Type} (f : A -> bool) (l : list A) : nat :=
  match l with
  | [] => O
  | a :: rest => if f a then S (leading f rest) else O
  end.

(** Length of the streak of errors at the end of [outputs]. *)
Definition trailing_errors (classify : string -> Class)
           (outputs : list string) : nat :=
  leading (fun o => is_error (classify o)) (rev outputs).

(** Number of outputs that advanced the iteration counter. *)
Definition advances (classify : string -> Class) (outputs : list string)
  : nat :=
  List.length (filter (fun o => is_continue (classify o)) outputs).

(** The outputs that a run has used: one for each invocation. *)
Definition consumed (r : Run) (outputs : list string) : list string :=
  firstn (invocations r) outputs.

(** Number of invocations that were not retries after a connection error. *)
Definition productive (classify : string -> Class) (outputs : list string)
  : nat :=
  List.length (filter (fun o => negb (is_error (classify o))) outputs).

(** Seconds slept during a run. *)
Fixpoint total_sleep (evs : list Event) : Z :=
  match evs with
  | [] => 0
  | Sleep seconds :: rest => seconds + total_sleep rest
  | _ :: rest => total_sleep rest
  end.

(** Seconds of backoff already slept in a streak of [c] errors. *)
Definition backoff_spent (c : Z) : Z := 5 * c * (c + 1).

(* ================================================================== *)
(** * Notions used in the statements and proofs *)

Definition loop_body_of (sc : Script)
  : Z -> string -> RunState -> list Event * Outcome :=
  match sc with
  | ralph_sh => Sh.loop_body
  | ralph_ps1 => Ps1.loop_body
  end.

(** A text without line feed. *)
Fixpoint one_line (p : string) : bool :=
  match p with
  | EmptyString => true
  | String c rest => negb (Ascii.eqb c LF) && one_line rest
  end.

(** [glue r1 r2]: the run [r1], which stopped waiting for the agent,
    continued by [r2]. *)
Definition glue (r1 r2 : Run) : Run :=
  {| events := events r1 ++ events r2;
     states := states r1 ++ states r2;
     final := final r2;
     status := status r2 |}.

(** The counters at the loop test when at most two errors are pending. *)
Definition within_budget (s : RunState) : Prop :=
  0 <= CONSECUTIVE_ERRORS s <= 2.

(** The number of invocations still possible from given counters. *)
Definition remaining (maxIterations : Z) (s : RunState) : Z :=
  Z.max 0 (3 * (maxIterations + 1 - ITERATION s) - CONSECUTIVE_ERRORS s).

(** Case analysis on one pass of the loop. *)
Inductive pass_spec (classify : string -> Class) (next : Z -> Z)
          (o : string) (s : RunState)
  : list Event * Outcome -> Prop :=
| pass_retry evs :
    classify o = TransientError -> CONSECUTIVE_ERRORS s + 1 < 3 ->
    filter is_RunAgent evs = [RunAgent] ->
    ~ In (Echo TooManyErrors) evs ->
    pass_spec classify next o s (evs, Continue {| ITERATION := ITERATION s;
                      CONSECUTIVE_ERRORS := CONSECUTIVE_ERRORS s + 1 |})
| pass_abort evs :
    classify o = TransientError -> 3 <= CONSECUTIVE_ERRORS s + 1 ->
    filter is_RunAgent evs = [RunAgent] ->
    last evs RunAgent = Echo TooManyErrors ->
    pass_spec classify next o s (evs, Exit 1 {| ITERATION := ITERATION s;
                      CONSECUTIVE_ERRORS := CONSECUTIVE_ERRORS s + 1 |})
| pass_complete evs :
    classify o = Completion ->
    filter is_RunAgent evs = [RunAgent] ->
    pass_spec classify next o s (evs, Exit 0 {| ITERATION := ITERATION s;
                                  CONSECUTIVE_ERRORS := 0 |})
| pass_next evs :
    classify o = ContinueLoop ->
    filter is_RunAgent evs = [RunAgent] ->
    ~ In (Echo TooManyErrors) evs ->
    pass_spec classify next o s (evs, Continue {| ITERATION := next (ITERATION s);
                                    CONSECUTIVE_ERRORS := 0 |}).

(* ================================================================== *)
(** * Text matching: correctness of the matchers *)

Section Matching.

Lemma is_prefix_spec (p s : string) :
  is_prefix p s = true <-> exists after, s = (p ++ after)%string.
Proof.
  revert s; induction p as [|a p IH]; intros s; simpl.
  - split; [intros _; now exists s | reflexivity].
  - destruct s as [|b s].
    + split; [discriminate | intros [x Hx]; discriminate].
    + rewrite andb_true_iff, Ascii.eqb_eq, IH. split.
      * intros [-> [x ->]]. now exists x.
      * intros [x Hx]. injection Hx as -> ->. split; [reflexivity | now exists x].
Qed.

Lemma contains_spec (p s : string) :
  contains p s = true <-> Substring p s.
Proof.
  unfold Substring. induction s as [|c s IH].
  - simpl. rewrite orb_false_r, is_prefix_spec. split.
    + intros [x Hx]. now exists EmptyString, x.
    + intros [[|b before] [x Hx]]; [now exists x | discriminate].
  - cbn [contains]. rewrite orb_true_iff, is_prefix_spec, IH. split.
    + intros [[x Hx] | [before [x Hx]]].
      * now exists EmptyString, x.
      * exists (String c before), x. simpl. now rewrite Hx.
    + intros [[|b before] [x Hx]].
      * left. now exists x.
      * right. simpl in Hx. injection Hx as -> ->. now exists before, x.
Qed.

Lemma lines_not_nil (s : string) : lines s <> [].
Proof.
  destruct s as [|c s]; simpl; [discriminate|].
  destruct (Ascii.eqb c LF); [discriminate|].
  destruct (lines s); discriminate.
Qed.

Lemma is_prefix_first_line (p s : string) :
  one_line p = true ->
  is_prefix p s = is_prefix p (hd EmptyString (lines s)).
Proof.
  revert s; induction p as [|a p IH]; intros s Hp; [reflexivity|].
  simpl in Hp. apply andb_true_iff in Hp as [Ha Hp].
  apply negb_true_iff in Ha.
  destruct s as [|b s]; [reflexivity|].
  cbn [lines]. destruct (Ascii.eqb b LF) eqn:Hb.
  - apply Ascii.eqb_eq in Hb; subst b. simpl. now rewrite Ha.
  - generalize (lines_not_nil s). specialize (IH s Hp).
    destruct (lines s) as [|l ls]; [congruence|]. intros _.
    simpl in *. now rewrite IH.
Qed.

(** A pattern without line feed occurs in a text exactly when it occurs in
    one of its lines. *)
Lemma contains_lines (p s : string) :
  one_line p = true ->
  existsb (contains p) (lines s) = contains p s.
Proof.
  intros Hp. induction s as [|c s IH]; simpl.
  - now rewrite orb_false_r.
  - destruct (Ascii.eqb c LF) eqn:Hc.
    + apply Ascii.eqb_eq in Hc; subst c. simpl. rewrite IH.
      rewrite orb_false_r. f_equal.
      destruct p as [|a p]; [reflexivity|]. simpl in *.
      apply andb_true_iff in Hp as [Ha _]. apply negb_true_iff in Ha.
      now rewrite Ha.
    + generalize (lines_not_nil s) (is_prefix_first_line p (String c s) Hp).
      cbn [lines]. rewrite Hc.
      destruct (lines s) as [|l ls]; [congruence|]. intros _ Hl.
      cbn [hd] in Hl. cbn [existsb contains] in *.
      rewrite <- IH, <- Hl. now rewrite orb_assoc.
Qed.

End Matching.

Section MatchersOfTheScripts.

Lemma existsb_swap {A B : Type} (f : A -> B -> bool) (la : list A) (lb : list B) :
  existsb (fun a => existsb (fun b => f a b) lb) la
  = existsb (fun b => existsb (fun a => f a b) la) lb.
Proof.
  induction la as [|a la IH]; simpl.
  - induction lb as [|b lb IHb]; simpl; [reflexivity | now rewrite <- IHb].
  - rewrite IH. clear IH. induction lb as [|b lb IHb]; simpl; [reflexivity|].
    rewrite <- IHb. destruct (f a b), (existsb (fun b0 => f a b0) lb),
      (existsb (fun a0 => f a0 b) la); reflexivity.
Qed.

Lemma existsb_pointwise {A : Type} (f g : A -> bool) (P : A -> bool) (l : list A) :
  forallb P l = true ->
  (forall a, P a = true -> f a = g a) ->
  existsb f l = existsb g l.
Proof.
  intros Hl Hfg. induction l as [|a l IH]; simpl in *; [reflexivity|].
  apply andb_true_iff in Hl as [Ha Hl]. now rewrite (Hfg a Ha), IH.
Qed.

(** [grep -q] with alternatives that have no line feed asks whether the
    whole text contains one of them. *)
Lemma grep_q_contains (alternatives : list string) (OUTPUT : string) :
  forallb one_line alternatives = true ->
  Sh.grep_q alternatives OUTPUT
  = existsb (fun p => contains p OUTPUT) alternatives.
Proof.
  intros Halt. unfold Sh.grep_q.
  rewrite (existsb_swap (fun line p => contains p line)).
  apply existsb_pointwise with (P := one_line); [assumption|].
  intros p Hp. now apply contains_lines.
Qed.

Lemma to_lower_LF (c : ascii) : Ascii.eqb (to_lower c) LF = Ascii.eqb c LF.
Proof. destruct c as [[] [] [] [] [] [] [] []]; reflexivity. Qed.

Lemma lines_lower (s : string) : lines (lower s) = map lower (lines s).
Proof.
  induction s as [|c s IH]; [reflexivity|].
  cbn [lower lines]. rewrite to_lower_LF, IH.
  destruct (Ascii.eqb c LF); [reflexivity|].
  destruct (lines s); reflexivity.
Qed.

Lemma filter_nonempty {A : Type} (f : A -> bool) (l : list A) :
  match filter f l with [] => false | _ :: _ => true end = existsb f l.
Proof.
  induction l as [|a l IH]; simpl; [reflexivity|].
  destruct (f a); [reflexivity | exact IH].
Qed.

(** [-match] with alternatives that have no line feed asks whether the
    whole text contains one of them, case folded. *)
Lemma op_match_contains (alternatives : list string) (text : string) :
  forallb (fun p => one_line (lower p)) alternatives = true ->
  Ps1.op_match (Ps1.Invoke_Agent text) alternatives
  = existsb (fun p => contains (lower p) (lower text)) alternatives.
Proof.
  intros Halt. unfold Ps1.op_match, Ps1.Invoke_Agent.
  rewrite filter_nonempty, existsb_app, orb_diag.
  rewrite (existsb_swap (fun line p => contains (lower p) (lower line))).
  apply existsb_pointwise with (P := fun p => one_line (lower p));
    [assumption|].
  intros p Hp. rewrite <- (contains_lines (lower p) (lower text) Hp).
  rewrite lines_lower. induction (lines text) as [|l ls IH]; simpl;
    [reflexivity | now rewrite IH].
Qed.

Lemma is_prefix_lower (p s : string) :
  is_prefix p s = true -> is_prefix (lower p) (lower s) = true.
Proof.
  revert s; induction p as [|a p IH]; intros [|b s]; simpl; try easy.
  intros H. apply andb_true_iff in H as [Hab H].
  apply Ascii.eqb_eq in Hab; subst b.
  now rewrite Ascii.eqb_refl, IH.
Qed.

(** Whatever matches with the letters as they are also matches when case
    is ignored. *)
Lemma contains_lower (p s : string) :
  contains p s = true -> contains (lower p) (lower s) = true.
Proof.
  induction s as [|c s IH]; intros H; cbn [contains] in H;
    apply orb_true_iff in H as [H|H]; try discriminate;
    try (apply is_prefix_lower in H; cbn [lower] in H);
    cbn [lower contains].
  - now rewrite H.
  - now rewrite H.
  - rewrite (IH H). apply orb_true_r.
Qed.

Lemma sh_connection_error (OUTPUT : string) :
  Sh.grep_q Sh.connection_error_pattern OUTPUT = true
  <-> matches_error_signature OUTPUT.
Proof.
  rewrite grep_q_contains by reflexivity.
  rewrite existsb_exists. unfold matches_error_signature.
  split; intros [p [Hin Hp]]; exists p; (split; [exact Hin|]);
    now apply contains_spec.
Qed.

Lemma sh_completion (OUTPUT : string) :
  Sh.grep_q Sh.completion_pattern OUTPUT = true
  <-> has_completion_marker OUTPUT.
Proof.
  rewrite grep_q_contains by reflexivity.
  unfold has_completion_marker. cbn [existsb Sh.completion_pattern].
  rewrite orb_false_r. apply contains_spec.
Qed.

Lemma ps1_connection_error (text : string) :
  matches_error_signature text ->
  Ps1.op_match (Ps1.Invoke_Agent text) Ps1.connection_error_pattern = true.
Proof.
  intros [p [Hin Hp]]. rewrite op_match_contains by reflexivity.
  apply existsb_exists. exists p. split; [exact Hin|].
  now apply contains_lower, contains_spec.
Qed.

Lemma ps1_completion (text : string) :
  has_completion_marker text ->
  Ps1.op_match (Ps1.Invoke_Agent text) Ps1.completion_pattern = true.
Proof.
  intros H. rewrite op_match_contains by reflexivity.
  cbn [existsb Ps1.completion_pattern]. rewrite orb_false_r.
  now apply contains_lower, contains_spec.
Qed.

End MatchersOfTheScripts.

(* ================================================================== *)
(** * The scripts follow the state machine *)

Section Refinement.

Lemma sh_loop_body_machine (MAX : Z) (OUTPUT : string) (s : RunState) :
  Sh.loop_body MAX OUTPUT s
  = Machine.transition Sh.classify (next_of ralph_sh) MAX OUTPUT s.
Proof.
  unfold Sh.loop_body, Machine.transition, Sh.classify.
  destruct (Sh.grep_q Sh.connection_error_pattern OUTPUT);
    [reflexivity|].
  destruct (Sh.grep_q Sh.completion_pattern OUTPUT); reflexivity.
Qed.

Lemma sh_refines_machine (MAX : Z) (outputs : list string) (s : RunState) :
  Sh.main_loop MAX outputs s
  = Machine.run Sh.classify (enter_of ralph_sh MAX) (next_of ralph_sh) MAX
      outputs s.
Proof.
  revert s; induction outputs as [|o outputs IH]; intros s;
    cbn [Sh.main_loop Machine.run enter_of]; [reflexivity|].
  rewrite sh_loop_body_machine.
  destruct (Machine.transition Sh.classify (next_of ralph_sh) MAX o s)
    as [evs [s'|code s']]; [now rewrite IH | reflexivity].
Qed.

Lemma ps1_loop_body_machine (Max : Z) (text : string) (s : RunState) :
  Ps1.loop_body Max text s
  = Machine.transition Ps1.classify (next_of ralph_ps1) Max text s.
Proof.
  unfold Ps1.loop_body, Machine.transition, Ps1.classify.
  destruct (Ps1.op_match (Ps1.Invoke_Agent text) Ps1.connection_error_pattern);
    [reflexivity|].
  destruct (Ps1.op_match (Ps1.Invoke_Agent text) Ps1.completion_pattern);
    reflexivity.
Qed.

Lemma ps1_refines_machine (Max : Z) (outputs : list string) (s : RunState) :
  Ps1.main_loop Max outputs s
  = Machine.run Ps1.classify (enter_of ralph_ps1 Max) (next_of ralph_ps1) Max
      outputs s.
Proof.
  revert s; induction outputs as [|o outputs IH]; intros s;
    cbn [Ps1.main_loop Machine.run enter_of counts_up_to]; [reflexivity|].
  rewrite ps1_loop_body_machine.
  destruct (Machine.transition Ps1.classify (next_of ralph_ps1) Max o s)
    as [evs [s'|code s']]; [now rewrite IH | reflexivity].
Qed.

Lemma run_script_machine (sc : Script) (MAX : Z) (outputs : list string) :
  run_script sc MAX outputs
  = Machine.run (classification sc) (enter_of sc MAX) (next_of sc) MAX
      outputs initial.
Proof.
  destruct sc; [apply sh_refines_machine | apply ps1_refines_machine].
Qed.

End Refinement.

(* ================================================================== *)
(** * Properties of the state machine *)

Section MachineProperties.

Variable classify : string -> Class.
Variable enter : Z -> bool.
Variable next : Z -> Z.
Variable maxIterations : Z.

Local Abbreviation transition :=
  (Machine.transition classify next maxIterations).
Local Abbreviation run := (Machine.run classify enter next maxIterations).

Lemma run_cons (o : string) (rest : list string) (s : RunState) :
  run (o :: rest) s =
  if enter (ITERATION s) then
    match transition o s with
    | (evs, Exit code s') =>
        {| events := evs; states := [s]; final := s'; status := Exited code |}
    | (evs, Continue s') => after evs s (run rest s')
    end
  else
    {| events := [Echo (ReachedMaxIterations maxIterations)];
       states := []; final := s; status := Exited 1 |}.
Proof. reflexivity. Qed.

Lemma run_over_budget (outputs : list string) (s : RunState) :
  enter (ITERATION s) = false ->
  run outputs s =
  {| events := [Echo (ReachedMaxIterations maxIterations)];
     states := []; final := s; status := Exited 1 |}.
Proof.
  intros H. destruct outputs; cbn [Machine.run]; now rewrite H.
Qed.

Lemma run_nil (s : RunState) :
  enter (ITERATION s) = true ->
  run [] s =
  {| events := []; states := []; final := s; status := AwaitingAgent |}.
Proof. intros H. cbn [Machine.run]. now rewrite H. Qed.

(** The three transitions, one lemma each. *)
Lemma transition_retry (o : string) (s : RunState) :
  classify o = TransientError ->
  CONSECUTIVE_ERRORS s + 1 < 3 ->
  transition o s =
  ([Banner (ITERATION s) maxIterations; RunAgent;
    Echo (ConnectionErrorDetected (CONSECUTIVE_ERRORS s + 1));
    Echo (WaitingBeforeRetry (10 * (CONSECUTIVE_ERRORS s + 1)));
    Sleep (10 * (CONSECUTIVE_ERRORS s + 1))],
   Continue {| ITERATION := ITERATION s;
               CONSECUTIVE_ERRORS := CONSECUTIVE_ERRORS s + 1 |}).
Proof.
  intros Hc Hlt. unfold Machine.transition. rewrite Hc.
  rewrite Z.geb_leb. unfold Machine.retryBudget, Machine.baseDelay.
  destruct (Z.leb_spec 3 (CONSECUTIVE_ERRORS s + 1)); [lia | reflexivity].
Qed.

Lemma transition_abort (o : string) (s : RunState) :
  classify o = TransientError ->
  3 <= CONSECUTIVE_ERRORS s + 1 ->
  transition o s =
  ([Banner (ITERATION s) maxIterations; RunAgent;
    Echo (ConnectionErrorDetected (CONSECUTIVE_ERRORS s + 1));
    Echo TooManyErrors],
   Exit 1 {| ITERATION := ITERATION s;
             CONSECUTIVE_ERRORS := CONSECUTIVE_ERRORS s + 1 |}).
Proof.
  intros Hc Hge. unfold Machine.transition. rewrite Hc.
  rewrite Z.geb_leb. unfold Machine.retryBudget.
  destruct (Z.leb_spec 3 (CONSECUTIVE_ERRORS s + 1)); [reflexivity | lia].
Qed.

Lemma transition_complete (o : string) (s : RunState) :
  classify o = Completion ->
  transition o s =
  ([Banner (ITERATION s) maxIterations; RunAgent;
    Echo (CompletedAllTasks (ITERATION s) maxIterations)],
   Exit 0 {| ITERATION := ITERATION s; CONSECUTIVE_ERRORS := 0 |}).
Proof. intros Hc. unfold Machine.transition. now rewrite Hc. Qed.

Lemma transition_next (o : string) (s : RunState) :
  classify o = ContinueLoop ->
  transition o s =
  ([Banner (ITERATION s) maxIterations; RunAgent;
    Echo (IterationComplete (ITERATION s)); Sleep 2],
   Continue {| ITERATION := next (ITERATION s); CONSECUTIVE_ERRORS := 0 |}).
Proof. intros Hc. unfold Machine.transition. now rewrite Hc. Qed.

Lemma transition_cases (o : string) (s : RunState) :
  pass_spec classify next o s (transition o s).
Proof.
  destruct (classify o) eqn:Hc.
  - destruct (Z.lt_ge_cases (CONSECUTIVE_ERRORS s + 1) 3) as [Hlt|Hge].
    + rewrite transition_retry by assumption.
      apply pass_retry; try assumption; [reflexivity|].
      cbn [In]. intros [H|[H|[H|[H|[H|[]]]]]]; discriminate.
    + rewrite transition_abort by assumption.
      apply pass_abort; try assumption; reflexivity.
  - rewrite transition_complete by assumption.
    apply pass_complete; [assumption | reflexivity].
  - rewrite transition_next by assumption.
    apply pass_next; [assumption | reflexivity |].
    cbn [In]. intros [H|[H|[H|[H|[]]]]]; discriminate.
Qed.

(** ** Runs over a list of outputs that is extended *)

Lemma glue_after (evs : list Event) (s : RunState) (r1 r2 : Run) :
  glue (after evs s r1) r2 = after evs s (glue r1 r2).
Proof. unfold glue, after; cbn. now rewrite app_assoc. Qed.

Lemma run_app (pre rest : list string) (s : RunState) :
  run (pre ++ rest) s =
  match status (run pre s) with
  | AwaitingAgent => glue (run pre s) (run rest (final (run pre s)))
  | Exited _ => run pre s
  end.
Proof.
  revert s; induction pre as [|o pre IH]; intros s.
  - cbn [app]. destruct (enter (ITERATION s)) eqn:H.
    + rewrite (run_nil s H). cbn. now destruct (run rest s).
    + now rewrite !(run_over_budget _ s H).
  - cbn [app]. rewrite !run_cons.
    destruct (enter (ITERATION s)); [|reflexivity].
    destruct (transition o s) as [evs [s'|code s']]; [|reflexivity].
    rewrite IH. cbn [after status final].
    destruct (status (run pre s')); [|reflexivity].
    now rewrite glue_after.
Qed.

(** ** Invariants of the counters *)

Lemma awaiting_final (outputs : list string) (s : RunState) :
  within_budget s ->
  status (run outputs s) = AwaitingAgent ->
  within_budget (final (run outputs s))
  /\ enter (ITERATION (final (run outputs s))) = true
  /\ invocations (run outputs s) = List.length outputs.
Proof.
  revert s; induction outputs as [|o outputs IH]; intros s Hs.
  - destruct (enter (ITERATION s)) eqn:H.
    + rewrite (run_nil s H). cbn. intros _. repeat split; try apply Hs.
      exact H.
    + rewrite (run_over_budget _ s H). discriminate.
  - rewrite run_cons.
    destruct (enter (ITERATION s)) eqn:H; [|discriminate].
    unfold within_budget in *.
    destruct (transition_cases o s) as [evs Hc Hlt Hn _|evs Hc Hge Hn _
                                       |evs Hc Hn|evs Hc Hn _];
      cbn [status after final]; try discriminate; intros Ha;
      (edestruct IH as (I1 & I2 & I3); [|exact Ha|]); cbn in *; try lia;
      (repeat split; try lia; try exact I2);
      unfold invocations in *; cbn [events];
      rewrite filter_app, Hn, length_app, I3; reflexivity.
Qed.

Lemma invocations_le (outputs : list string) (s : RunState) :
  (invocations (run outputs s) <= List.length outputs)%nat.
Proof.
  revert s; induction outputs as [|o outputs IH]; intros s.
  - cbn [Machine.run]. destruct (enter _); cbn; lia.
  - rewrite run_cons. destruct (enter _); [|cbn; lia].
    destruct (transition_cases o s) as [evs Hc Hlt Hn _|evs Hc Hge Hn _
                                       |evs Hc Hn|evs Hc Hn _];
      unfold invocations in *; cbn [after events];
      rewrite ?filter_app, ?length_app, Hn; cbn [List.length];
      try lia.
    + specialize (IH {| ITERATION := ITERATION s;
          CONSECUTIVE_ERRORS := CONSECUTIVE_ERRORS s + 1 |}). lia.
    + specialize (IH {| ITERATION := next (ITERATION s);
                        CONSECUTIVE_ERRORS := 0 |}). lia.
Qed.

End MachineProperties.

Section MachineTheorems.

Variable classify : string -> Class.
Variable enter : Z -> bool.
Variable next : Z -> Z.
Variable maxIterations : Z.

Local Abbreviation transition :=
  (Machine.transition classify next maxIterations).
Local Abbreviation run := (Machine.run classify enter next maxIterations).

Lemma last_app_nonempty {A : Type} (l1 l2 : list A) (d : A) :
  l2 <> [] -> last (l1 ++ l2) d = last l2 d.
Proof.
  intros H. induction l1 as [|a l1 IH]; [reflexivity|].
  cbn [app]. rewrite <- IH. cbn [last].
  destruct (l1 ++ l2) eqn:E; [|reflexivity].
  apply app_eq_nil in E as [_ E]. contradiction.
Qed.

Lemma terminal_glue (r1 r2 : Run) :
  events r2 <> [] -> terminal (glue r1 r2) = terminal r2.
Proof.
  intros H. unfold terminal, glue; cbn [status events].
  now rewrite last_app_nonempty.
Qed.

Lemma terminal_after (evs : list Event) (s : RunState) (r : Run) :
  events r <> [] -> terminal (after evs s r) = terminal r.
Proof.
  intros H. unfold terminal, after; cbn [status events].
  now rewrite last_app_nonempty.
Qed.

Lemma invocations_glue (r1 r2 : Run) :
  invocations (glue r1 r2) = (invocations r1 + invocations r2)%nat.
Proof.
  unfold invocations, glue; cbn [events].
  now rewrite filter_app, length_app.
Qed.

Lemma exited_events (outputs : list string) (s : RunState) (code : Z) :
  status (run outputs s) = Exited code -> events (run outputs s) <> [].
Proof.
  revert s; induction outputs as [|o outputs IH]; intros s.
  - cbn [Machine.run]. destruct (enter _); cbn; discriminate.
  - rewrite run_cons. destruct (enter _); [|cbn; discriminate].
    destruct (transition_cases classify next maxIterations o s)
      as [evs Hc Hlt Hn _|evs Hc Hge Hn _|evs Hc Hn|evs Hc Hn _];
      cbn [after events status]; intros H E;
      try (apply app_eq_nil in E as [E _]); subst evs; discriminate.
Qed.

(** Completion stops the run at once, for any classification. *)
Lemma machine_completion (pre rest : list string) (o : string) (s : RunState) :
  within_budget s ->
  status (run pre s) = AwaitingAgent ->
  classify o = Completion ->
  let r := run (pre ++ o :: rest) s in
  status r = Exited 0
  /\ terminal r = Some Succeeded
  /\ invocations r = S (List.length pre)
  /\ last (events r) RunAgent
     = Echo (CompletedAllTasks (ITERATION (final (run pre s))) maxIterations).
Proof.
  intros Hs Ha Hc r. subst r. rewrite run_app, Ha.
  destruct (awaiting_final classify enter next maxIterations pre s Hs Ha)
    as (_ & Hle & Hinv).
  set (s1 := final (run pre s)) in *.
  assert (E : run (o :: rest) s1 =
    {| events := [Banner (ITERATION s1) maxIterations; RunAgent;
                  Echo (CompletedAllTasks (ITERATION s1) maxIterations)];
       states := [s1];
       final := {| ITERATION := ITERATION s1; CONSECUTIVE_ERRORS := 0 |};
       status := Exited 0 |}).
  { rewrite run_cons. rewrite Hle.
    now rewrite transition_complete. }
  rewrite E. repeat split.
  - rewrite invocations_glue, Hinv. cbn. lia.
  - cbn [glue events]. now rewrite last_app_nonempty.
Qed.

(** Three errors in a row are never followed by another invocation (C2,
    for any classification). *)
Lemma machine_error_budget (pre rest : list string) (e1 e2 e3 : string)
      (s : RunState) :
  within_budget s ->
  classify e1 = TransientError ->
  classify e2 = TransientError ->
  classify e3 = TransientError ->
  let r := run (pre ++ e1 :: e2 :: e3 :: rest) s in
  (invocations r <= List.length pre + 3)%nat
  /\ (status (run pre s) = AwaitingAgent ->
      status r = Exited 1
      /\ terminal r = Some FailedTooManyErrors
      /\ CONSECUTIVE_ERRORS (final r) = 3).
Proof.
  intros Hs H1 H2 H3 r. subst r. rewrite run_app.
  destruct (status (run pre s)) eqn:Ha.
  2:{ split; [|discriminate].
      pose proof (invocations_le classify enter next maxIterations pre s). lia. }
  destruct (awaiting_final classify enter next maxIterations pre s Hs Ha)
    as (Hb & Hle & Hinv).
  set (s1 := final (run pre s)) in *. unfold within_budget in Hb.
  set (tail := run (e1 :: e2 :: e3 :: rest) s1).
  assert (E : status tail = Exited 1
              /\ CONSECUTIVE_ERRORS (final tail) = 3
              /\ last (events tail) RunAgent = Echo TooManyErrors
              /\ events tail <> []
              /\ (invocations tail <= 3)%nat).
  { assert (Hcase : CONSECUTIVE_ERRORS s1 = 2 \/ CONSECUTIVE_ERRORS s1 = 1
                    \/ CONSECUTIVE_ERRORS s1 = 0) by lia.
    subst tail. destruct Hcase as [C|[C|C]].
    - rewrite run_cons, Hle, transition_abort by (assumption || lia).
      rewrite C. cbn. repeat split; (reflexivity || discriminate || lia).
    - rewrite run_cons, Hle, transition_retry by (assumption || lia).
      rewrite run_cons. cbn [ITERATION CONSECUTIVE_ERRORS]. rewrite Hle.
      rewrite transition_abort
        by (assumption || (cbn [CONSECUTIVE_ERRORS]; lia)).
      rewrite C. cbn. repeat split; (reflexivity || discriminate || lia).
    - rewrite run_cons, Hle, transition_retry by (assumption || lia).
      rewrite run_cons. cbn [ITERATION CONSECUTIVE_ERRORS]. rewrite Hle.
      rewrite transition_retry
        by (assumption || (cbn [CONSECUTIVE_ERRORS]; lia)).
      rewrite run_cons. cbn [ITERATION CONSECUTIVE_ERRORS]. rewrite Hle.
      rewrite transition_abort
        by (assumption || (cbn [CONSECUTIVE_ERRORS]; lia)).
      rewrite C. cbn. repeat split; (reflexivity || discriminate || lia). }
  destruct E as (Est & Efin & Elast & Ene & Einv).
  split.
  - rewrite invocations_glue, Hinv. lia.
  - intros _. repeat split; [exact Est| |exact Efin].
    rewrite terminal_glue by exact Ene.
    unfold terminal. now rewrite Est, Elast.
Qed.

(** Retries keep the iteration counter where it is, for any
    classification. *)
Lemma machine_retry_same_iteration (outputs : list string) :
  enter (ITERATION initial) = true ->
  Forall (fun o => classify o = TransientError) outputs ->
  (1 <= List.length outputs < 3)%nat ->
  let r := run outputs initial in
  status r = AwaitingAgent
  /\ final r = {| ITERATION := 1;
                  CONSECUTIVE_ERRORS := Z.of_nat (List.length outputs) |}
  /\ Forall (fun s => ITERATION s = 1) (states r)
  /\ invocations r = List.length outputs.
Proof.
  intros Hle Hall Hlen r. subst r.
  destruct outputs as [|e1 [|e2 [|e3 outputs]]]; cbn [List.length] in Hlen;
    try lia.
  - inversion_clear Hall as [|? ? H1 _].
    rewrite run_cons, Hle, transition_retry by (assumption || (cbn; lia)).
    rewrite run_nil by exact Hle. cbn.
    repeat split; repeat constructor.
  - inversion_clear Hall as [|? ? H1 Hall'].
    inversion_clear Hall' as [|? ? H2 _].
    rewrite run_cons, Hle, transition_retry by (assumption || (cbn; lia)).
    rewrite run_cons. cbn [ITERATION CONSECUTIVE_ERRORS].
    change (enter 1) with (enter (ITERATION initial)).
    rewrite Hle, transition_retry by (assumption || (cbn; lia)).
    rewrite run_nil by exact Hle. cbn.
    repeat split; repeat constructor.
Qed.

(** A pass without error clears the error counter. *)
Lemma machine_reset (pre : list string) (o : string) (s : RunState) :
  within_budget s ->
  status (run pre s) = AwaitingAgent ->
  classify o <> TransientError ->
  CONSECUTIVE_ERRORS (final (run (pre ++ [o]) s)) = 0.
Proof.
  intros Hs Ha Hc. rewrite run_app, Ha. cbn [glue final].
  destruct (awaiting_final classify enter next maxIterations pre s Hs Ha)
    as (_ & Hle & _).
  set (s1 := final (run pre s)) in *.
  rewrite run_cons, Hle.
  destruct (classify o) eqn:Ho; [congruence| |].
  - now rewrite transition_complete.
  - rewrite transition_next by assumption. cbn [after final Machine.run].
    cbn [ITERATION].
    destruct (enter (next (ITERATION s1))); reflexivity.
Qed.

(** An abort for too many errors comes right after three errors in a row,
    or, when errors were already pending, after as many as were missing. *)
Lemma abort_needs_streak (outputs : list string) (s : RunState) :
  within_budget s ->
  terminal (run outputs s) = Some FailedTooManyErrors ->
  exists used tail,
    outputs = used ++ tail
    /\ invocations (run outputs s) = List.length used
    /\ ((exists mid e1 e2 e3,
           used = mid ++ [e1; e2; e3]
           /\ classify e1 = TransientError
           /\ classify e2 = TransientError
           /\ classify e3 = TransientError)
        \/ (0 < CONSECUTIVE_ERRORS s
            /\ Z.of_nat (List.length used) = 3 - CONSECUTIVE_ERRORS s
            /\ Forall (fun o => classify o = TransientError) used)).
Proof.
  revert s; induction outputs as [|o outputs IH]; intros s Hs.
  - cbn [Machine.run]. destruct (enter _); cbn; discriminate.
  - rewrite run_cons. destruct (enter _); [|cbn; discriminate].
    unfold within_budget in Hs.
    destruct (transition_cases classify next maxIterations o s)
      as [evs Hc Hlt Hn _|evs Hc Hge Hn Hl|evs Hc Hn|evs Hc Hn _].
    + set (s' := {| ITERATION := ITERATION s;
                    CONSECUTIVE_ERRORS := CONSECUTIVE_ERRORS s + 1 |}).
      destruct (status (run outputs s')) eqn:Hst.
      { unfold terminal, after. cbn [status]. now rewrite Hst. }
      rewrite terminal_after by (eapply exited_events; eassumption).
      intros Ht. destruct (IH s') as (used & tail & -> & Hinv & Hor);
        [unfold within_budget; cbn; lia | exact Ht |].
      exists (o :: used), tail. split; [reflexivity|]. split.
      { unfold invocations in *. cbn [after events].
        rewrite filter_app, length_app, Hn, Hinv. reflexivity. }
      destruct Hor as [(mid & e1 & e2 & e3 & -> & H1 & H2 & H3)
                      |(Hpos & Hlen & Hall)].
      * left. exists (o :: mid), e1, e2, e3. now repeat split.
      * cbn [CONSECUTIVE_ERRORS s'] in Hlen, Hpos.
        destruct (Z.eq_dec (CONSECUTIVE_ERRORS s) 0) as [C|C].
        -- left. destruct used as [|a [|b [|c used]]];
             cbn [List.length] in Hlen; try lia.
           inversion_clear Hall as [|? ? Ha Hall'].
           inversion_clear Hall' as [|? ? Hb _].
           exists [], o, a, b. now repeat split.
        -- right. split; [lia|]. split; [cbn [List.length]; lia|].
           now constructor.
    + intros _. exists [o], outputs. split; [reflexivity|]. split.
      { unfold invocations. cbn [events]. now rewrite Hn. }
      right. split; [lia|]. split; [cbn [List.length]; lia|].
      now repeat constructor.
    + unfold terminal. cbn. discriminate.
    + set (s' := {| ITERATION := next (ITERATION s);
                    CONSECUTIVE_ERRORS := 0 |}).
      destruct (status (run outputs s')) eqn:Hst.
      { unfold terminal, after. cbn [status]. now rewrite Hst. }
      rewrite terminal_after by (eapply exited_events; eassumption).
      intros Ht. destruct (IH s') as (used & tail & -> & Hinv & Hor);
        [unfold within_budget; cbn; lia | exact Ht |].
      exists (o :: used), tail. split; [reflexivity|]. split.
      { unfold invocations in *. cbn [after events].
        rewrite filter_app, length_app, Hn, Hinv. reflexivity. }
      destruct Hor as [(mid & e1 & e2 & e3 & -> & H1 & H2 & H3)
                      |(Hpos & _)].
      * left. exists (o :: mid), e1, e2, e3. now repeat split.
      * cbn in Hpos. lia.
Qed.

(** After a pass without error, an abort for too many errors needs three
    errors in a row among the later outputs. *)
Lemma machine_streak_after_reset (pre rest : list string) (o : string)
      (s : RunState) :
  within_budget s ->
  status (run pre s) = AwaitingAgent ->
  classify o <> TransientError ->
  terminal (run (pre ++ o :: rest) s) = Some FailedTooManyErrors ->
  exists mid e1 e2 e3 tail,
    rest = mid ++ e1 :: e2 :: e3 :: tail
    /\ classify e1 = TransientError
    /\ classify e2 = TransientError
    /\ classify e3 = TransientError
    /\ invocations (run (pre ++ o :: rest) s)
       = (List.length pre + 1 + List.length mid + 3)%nat.
Proof.
  intros Hs Ha Hc. rewrite run_app, Ha.
  destruct (awaiting_final classify enter next maxIterations pre s Hs Ha)
    as (_ & Hle & Hinv).
  set (s1 := final (run pre s)) in *.
  rewrite invocations_glue, Hinv, run_cons, Hle.
  destruct (classify o) eqn:Ho; [congruence| |].
  - rewrite transition_complete by assumption.
    unfold terminal. cbn. discriminate.
  - rewrite transition_next by assumption.
    set (s2 := {| ITERATION := next (ITERATION s1);
                  CONSECUTIVE_ERRORS := 0 |}).
    destruct (status (run rest s2)) eqn:Hst.
    { unfold terminal, glue, after. cbn [status]. now rewrite Hst. }
    pose proof (exited_events rest s2 code Hst) as Hne.
    rewrite terminal_glue by (cbn [after events]; intros E;
      apply app_eq_nil in E as [E _]; discriminate).
    rewrite terminal_after by exact Hne.
    intros Ht.
    destruct (abort_needs_streak rest s2) as (used & tail & -> & Hi & Hor);
      [unfold within_budget; cbn; lia | exact Ht |].
    destruct Hor as [(mid & e1 & e2 & e3 & -> & H1 & H2 & H3)|(Hpos & _)];
      [|cbn in Hpos; lia].
    exists mid, e1, e2, e3, tail.
    split; [now rewrite <- app_assoc|].
    repeat split; try assumption.
    unfold invocations in *. cbn [after events].
    rewrite filter_app, length_app, Hi, length_app. cbn. lia.
Qed.

(** The wait before the retry that follows the [i]-th error of a streak is
    ten seconds times [i] (C8, for any classification). *)
Lemma machine_backoff (pre streak : list string) (s : RunState) (i : Z) :
  within_budget s ->
  status (run pre s) = AwaitingAgent ->
  CONSECUTIVE_ERRORS (final (run pre s)) = 0 ->
  Forall (fun o => classify o = TransientError) streak ->
  Z.of_nat (List.length streak) = i ->
  1 <= i <= 2 ->
  let r := run (pre ++ streak) s in
  status r = AwaitingAgent
  /\ exists evs,
       events r = evs ++ [Echo (WaitingBeforeRetry (Machine.baseDelay * i));
                          Sleep (Machine.baseDelay * i)].
Proof.
  intros Hs Ha Hz Hall Hlen Hi r. subst r. rewrite run_app, Ha.
  destruct (awaiting_final classify enter next maxIterations pre s Hs Ha)
    as (_ & Hle & _).
  set (s1 := final (run pre s)) in *.
  pose proof Hle as Hleb.
  destruct streak as [|e1 [|e2 [|e3 streak]]]; cbn [List.length] in Hlen;
    try lia.
  - inversion_clear Hall as [|? ? H1 _].
    rewrite run_cons, Hleb, transition_retry by (assumption || lia).
    rewrite run_nil by exact Hle. rewrite Hz.
    replace i with 1 by lia. split; [reflexivity|].
    eexists (events (run pre s) ++ [_; _; _]). cbn [glue after events].
    rewrite <- app_assoc. reflexivity.
  - inversion_clear Hall as [|? ? H1 Hall'].
    inversion_clear Hall' as [|? ? H2 _].
    rewrite run_cons, Hleb, transition_retry by (assumption || lia).
    rewrite run_cons. cbn [ITERATION CONSECUTIVE_ERRORS]. rewrite Hleb.
    rewrite transition_retry
      by (assumption || (cbn [CONSECUTIVE_ERRORS]; lia)).
    rewrite run_nil by exact Hle. rewrite Hz.
    replace i with 2 by lia. split; [reflexivity|].
    eexists (events (run pre s) ++ [_; _; _; _; _; _; _; _]).
    cbn [glue after events]. rewrite <- app_assoc. reflexivity.
Qed.

End MachineTheorems.

(* ================================================================== *)
(** * The machine when the counter counts

    The lemmas of this section are about the machine whose loop test is
    the comparison of integers and whose counter goes up by one at each
    iteration.  [ralph.ps1] is this machine; [ralph.sh] is this machine
    for the budgets below [2^63 - 1] ([sh_counts]). *)

Section CountingMachine.

Variable classify : string -> Class.
Variable maxIterations : Z.

Local Abbreviation transition :=
  (Machine.transition classify plus_one maxIterations).
Local Abbreviation run :=
  (Machine.run classify (counts_up_to maxIterations) plus_one maxIterations).

Lemma ideal_run_cons (o : string) (rest : list string) (s : RunState) :
  run (o :: rest) s =
  if ITERATION s <=? maxIterations then
    match transition o s with
    | (evs, Exit code s') =>
        {| events := evs; states := [s]; final := s'; status := Exited code |}
    | (evs, Continue s') => after evs s (run rest s')
    end
  else
    {| events := [Echo (ReachedMaxIterations maxIterations)];
       states := []; final := s; status := Exited 1 |}.
Proof. reflexivity. Qed.

Lemma ideal_run_over_budget (outputs : list string) (s : RunState) :
  maxIterations < ITERATION s ->
  run outputs s =
  {| events := [Echo (ReachedMaxIterations maxIterations)];
     states := []; final := s; status := Exited 1 |}.
Proof.
  intros H. apply run_over_budget. unfold counts_up_to.
  now apply Z.leb_gt.
Qed.

Lemma ideal_run_nil (s : RunState) :
  ITERATION s <= maxIterations ->
  run [] s =
  {| events := []; states := []; final := s; status := AwaitingAgent |}.
Proof.
  intros H. apply run_nil. unfold counts_up_to. now apply Z.leb_le.
Qed.

Lemma ideal_transition_next (o : string) (s : RunState) :
  classify o = ContinueLoop ->
  transition o s =
  ([Banner (ITERATION s) maxIterations; RunAgent;
    Echo (IterationComplete (ITERATION s)); Sleep 2],
   Continue {| ITERATION := ITERATION s + 1; CONSECUTIVE_ERRORS := 0 |}).
Proof. apply transition_next. Qed.

Lemma ideal_transition_cases (o : string) (s : RunState) :
  pass_spec classify (fun iteration => iteration + 1) o s (transition o s).
Proof. apply (transition_cases classify plus_one maxIterations). Qed.

Lemma ideal_awaiting (outputs : list string) (s : RunState) :
  within_budget s ->
  status (run outputs s) = AwaitingAgent ->
  ITERATION (final (run outputs s)) <= maxIterations.
Proof.
  intros Hs Ha.
  destruct (awaiting_final classify (counts_up_to maxIterations) plus_one
              maxIterations outputs s Hs Ha) as (_ & Hle & _).
  unfold counts_up_to in Hle. now apply Z.leb_le in Hle.
Qed.

(** With outputs that are neither errors nor completions the loop makes
    one pass per iteration and then gives up, for any classification. *)
Lemma machine_all_continue (n : nat) (outputs : list string) (s : RunState) :
  Forall (fun o => classify o = ContinueLoop) outputs ->
  Z.of_nat n = maxIterations + 1 - ITERATION s ->
  (n <= List.length outputs)%nat ->
  let r := run outputs s in
  status r = Exited 1
  /\ terminal r = Some FailedMaxIterations
  /\ invocations r = n
  /\ map ITERATION (states r)
     = map (fun k => ITERATION s + Z.of_nat k) (seq 0 n)
  /\ ITERATION (final r) = maxIterations + 1.
Proof.
  revert outputs s; induction n as [|n IH]; intros outputs s Hall Hn Hlen r;
    subst r.
  - rewrite ideal_run_over_budget by lia. cbn. repeat split. lia.
  - destruct outputs as [|o outputs]; [cbn in Hlen; lia|].
    inversion_clear Hall as [|? ? Ho Hall'].
    rewrite ideal_run_cons.
    destruct (Z.leb_spec (ITERATION s) maxIterations) as [Hle|Hgt]; [|lia].
    rewrite ideal_transition_next by assumption.
    set (s' := {| ITERATION := ITERATION s + 1; CONSECUTIVE_ERRORS := 0 |}).
    destruct (IH outputs s' Hall') as (I1 & I2 & I3 & I4 & I5);
      [cbn; lia | cbn in Hlen; lia |].
    repeat split.
    + exact I1.
    + rewrite terminal_after by (eapply exited_events; exact I1). exact I2.
    + unfold invocations in *. cbn [after events].
      rewrite filter_app, length_app, I3. reflexivity.
    + cbn [after states map]. rewrite I4. cbn [seq map].
      rewrite Z.add_0_r. f_equal. rewrite <- seq_shift, map_map.
      apply map_ext. intros k. cbn [ITERATION s']. lia.
    + exact I5.
Qed.

(** A run never makes more than [remaining] invocations and has stopped
    once it has been given that many outputs, for any classification. *)
Lemma machine_bound (outputs : list string) (s : RunState) :
  within_budget s ->
  Z.of_nat (invocations (run outputs s)) <= remaining maxIterations s
  /\ (remaining maxIterations s <= Z.of_nat (List.length outputs) ->
      exists code, status (run outputs s) = Exited code).
Proof.
  revert s; induction outputs as [|o outputs IH]; intros s Hs;
    unfold within_budget, remaining in *.
  - destruct (Z.leb_spec (ITERATION s) maxIterations) as [H|H].
    + rewrite (ideal_run_nil s H). unfold invocations.
      cbn [events status filter List.length].
      split; [lia|]. intros Hb. exfalso. lia.
    + rewrite (ideal_run_over_budget _ s H). unfold invocations.
      cbn [events status filter List.length is_RunAgent].
      split; [lia|]. now exists 1.
  - destruct (Z.leb_spec (ITERATION s) maxIterations) as [H|H].
    2:{ rewrite (ideal_run_over_budget _ s H). unfold invocations.
        cbn [events status filter List.length is_RunAgent].
        split; [lia|]. now exists 1. }
    rewrite ideal_run_cons. apply Z.leb_le in H as Hb. rewrite Hb.
    destruct (ideal_transition_cases o s)
      as [evs Hc Hlt Hn _|evs Hc Hge Hn _|evs Hc Hn|evs Hc Hn _];
      unfold invocations; cbn [after events status];
      rewrite ?filter_app, ?length_app, Hn; cbn [List.length].
    + destruct (IH {| ITERATION := ITERATION s;
          CONSECUTIVE_ERRORS := CONSECUTIVE_ERRORS s + 1 |}) as [I1 I2];
        [cbn; lia|]. unfold invocations in I1.
      cbn [ITERATION CONSECUTIVE_ERRORS] in I1, I2.
      split; [lia|]. intros Hlen. apply I2. lia.
    + split; [lia|]. intros _. now exists 1.
    + split; [lia|]. intros _. now exists 0.
    + destruct (IH {| ITERATION := ITERATION s + 1;
                      CONSECUTIVE_ERRORS := 0 |}) as [I1 I2];
        [cbn; lia|]. unfold invocations in I1.
      cbn [ITERATION CONSECUTIVE_ERRORS] in I1, I2.
      split; [lia|]. intros Hlen. apply I2. lia.
Qed.

(** The counters of a run stay small: the iteration counter within
    [1 .. maxIterations + 1], the error counter within [0 .. 3]. *)
Lemma counters_bounded (outputs : list string) (s : RunState) :
  within_budget s ->
  1 <= ITERATION s <= maxIterations + 1 ->
  let r := run outputs s in
  Forall (fun x => 1 <= ITERATION x <= maxIterations
                   /\ 0 <= CONSECUTIVE_ERRORS x <= 2) (states r)
  /\ 1 <= ITERATION (final r) <= maxIterations + 1
  /\ 0 <= CONSECUTIVE_ERRORS (final r) <= 3.
Proof.
  revert s; induction outputs as [|o outputs IH]; intros s Hs Hit r; subst r;
    unfold within_budget in *.
  - cbn [Machine.run]. unfold counts_up_to. destruct (_ <=? _); cbn;
      repeat split; (lia || constructor).
  - rewrite ideal_run_cons.
    destruct (Z.leb_spec (ITERATION s) maxIterations) as [H|H];
      [|cbn; repeat split; (lia || constructor)].
    destruct (ideal_transition_cases o s)
      as [evs Hc Hlt Hn _|evs Hc Hge Hn _|evs Hc Hn|evs Hc Hn _];
      cbn [after states final ITERATION CONSECUTIVE_ERRORS].
    + destruct (IH {| ITERATION := ITERATION s;
          CONSECUTIVE_ERRORS := CONSECUTIVE_ERRORS s + 1 |}) as (I1 & I2 & I3);
        [cbn; lia | cbn; lia |].
      repeat split; try (constructor; [|exact I1]); lia.
    + repeat split; try (repeat constructor); lia.
    + repeat split; try (repeat constructor); lia.
    + destruct (IH {| ITERATION := ITERATION s + 1;
                      CONSECUTIVE_ERRORS := 0 |}) as (I1 & I2 & I3);
        [cbn; lia | cbn; lia |].
      repeat split; try (constructor; [|exact I1]); lia.
Qed.

(** For a budget below [2^63 - 1] the arithmetic of every pass gives the
    same result on 64-bit integers as on the integers. *)
Lemma arithmetic_in_range (outputs : list string) :
  1 <= maxIterations < 2 ^ 63 - 1 ->
  Forall (fun x =>
            wrap64 (ITERATION x + 1) = ITERATION x + 1
            /\ wrap64 (CONSECUTIVE_ERRORS x + 1) = CONSECUTIVE_ERRORS x + 1
            /\ wrap64 (10 * (CONSECUTIVE_ERRORS x + 1))
               = 10 * (CONSECUTIVE_ERRORS x + 1))
         (states (run outputs initial)).
Proof.
  intros Hmax.
  destruct (counters_bounded outputs initial) as (H & _).
  - unfold within_budget; cbn; lia.
  - cbn; lia.
  - eapply Forall_impl; [|exact H]. cbn beta. intros x [Hi Hc].
    assert (W : forall v, - 2 ^ 63 <= v < 2 ^ 63 -> wrap64 v = v).
    { intros v Hv. unfold wrap64.
      rewrite Z.mod_small by lia. lia. }
    repeat split; apply W; lia.
Qed.


End CountingMachine.

(* ================================================================== *)
(** * The counter of [ralph.sh] on 64-bit integers *)

Section CounterOfTheShell.

Lemma wrap64_small (x : Z) : - 2 ^ 63 <= x < 2 ^ 63 -> wrap64 x = x.
Proof.
  intros H. unfold wrap64. rewrite Z.mod_small by lia. lia.
Qed.

Lemma wrap64_range (x : Z) : - 2 ^ 63 <= wrap64 x < 2 ^ 63.
Proof.
  unfold wrap64.
  pose proof (Z.mod_pos_bound (x + 2 ^ 63) (2 ^ 64) ltac:(lia)). lia.
Qed.

Lemma in_int64_spec (x : Z) :
  in_int64 x = true <-> - 2 ^ 63 <= x <= 2 ^ 63 - 1.
Proof.
  unfold in_int64. rewrite andb_true_iff, !Z.leb_le. reflexivity.
Qed.

Lemma in_int64_wrap64 (x : Z) : in_int64 (wrap64 x) = true.
Proof. apply in_int64_spec. pose proof (wrap64_range x). lia. Qed.

Lemma test_le_spec (a b : Z) :
  Sh.test_le a b = true <->
  - 2 ^ 63 <= a <= 2 ^ 63 - 1 /\ - 2 ^ 63 <= b <= 2 ^ 63 - 1 /\ a <= b.
Proof.
  unfold Sh.test_le. rewrite !andb_true_iff, !in_int64_spec, Z.leb_le.
  tauto.
Qed.

(** The greatest 64-bit integer is followed by the least one. *)
Lemma wrap64_max : wrap64 (2 ^ 63 - 1 + 1) = - 2 ^ 63.
Proof. reflexivity. Qed.

(** For a budget below [2^63 - 1] the loop of [ralph.sh] counts as the
    integers do. *)
Lemma sh_counts (classify : string -> Class) (MAX : Z)
      (outputs : list string) (s : RunState) :
  MAX < 2 ^ 63 - 1 ->
  - 2 ^ 63 <= ITERATION s <= 2 ^ 63 - 1 ->
  Machine.run classify (enter_of ralph_sh MAX) (next_of ralph_sh) MAX
    outputs s
  = Machine.run classify (counts_up_to MAX) plus_one MAX outputs s.
Proof.
  intros Hmax. revert s; induction outputs as [|o outputs IH]; intros s Hs.
  - cbn [Machine.run enter_of]. unfold counts_up_to.
    destruct (Sh.test_le (ITERATION s) MAX) eqn:E.
    + apply test_le_spec in E as (_ & _ & E).
      apply Z.leb_le in E. now rewrite E.
    + destruct (Z.leb_spec (ITERATION s) MAX) as [H|H]; [|reflexivity].
      assert (Sh.test_le (ITERATION s) MAX = true)
        by (apply test_le_spec; lia).
      congruence.
  - rewrite !run_cons. cbn [enter_of]. unfold counts_up_to.
    destruct (Sh.test_le (ITERATION s) MAX) eqn:E.
    + apply test_le_spec in E as (_ & _ & E).
      apply Z.leb_le in E as E'. rewrite E'.
      unfold Machine.transition. cbn [next_of]. unfold plus_one.
      rewrite (wrap64_small (ITERATION s + 1)) by lia.
      destruct (classify o); [destruct (_ >=? _)| |]; try reflexivity.
      * rewrite IH by (cbn; lia). reflexivity.
      * rewrite IH by (cbn; lia). reflexivity.
    + destruct (Z.leb_spec (ITERATION s) MAX) as [H|H]; [|reflexivity].
      assert (Sh.test_le (ITERATION s) MAX = true)
        by (apply test_le_spec; lia).
      congruence.
Qed.

(** A budget of [2^63] or more is not a number that the loop test of
    [ralph.sh] can read: the test fails and the loop is not entered. *)
Lemma sh_budget_too_large (classify : string -> Class) (MAX : Z)
      (outputs : list string) :
  2 ^ 63 <= MAX ->
  Machine.run classify (enter_of ralph_sh MAX) (next_of ralph_sh) MAX
    outputs initial
  = {| events := [Echo (ReachedMaxIterations MAX)];
       states := []; final := initial; status := Exited 1 |}.
Proof.
  intros H. apply run_over_budget. cbn [enter_of ITERATION initial].
  destruct (Sh.test_le 1 MAX) eqn:E; [|reflexivity].
  apply test_le_spec in E. lia.
Qed.

(** With the budget [2^63 - 1] the loop test of [ralph.sh] holds for every
    value of the counter: plain outputs never end the run. *)
Lemma sh_never_leaves (classify : string -> Class) (outputs : list string)
      (s : RunState) :
  Forall (fun o => classify o = ContinueLoop) outputs ->
  in_int64 (ITERATION s) = true ->
  status (Machine.run classify (enter_of ralph_sh (2 ^ 63 - 1))
            (next_of ralph_sh) (2 ^ 63 - 1) outputs s) = AwaitingAgent.
Proof.
  intros Hall. revert s; induction Hall as [|o outputs Ho _ IH]; intros s Hs;
    assert (E : enter_of ralph_sh (2 ^ 63 - 1) (ITERATION s) = true)
      by (cbn [enter_of]; apply test_le_spec;
          apply in_int64_spec in Hs; lia).
  - now rewrite run_nil.
  - rewrite run_cons, E, transition_next by exact Ho.
    cbn [after status]. apply IH. cbn [ITERATION next_of].
    apply in_int64_wrap64.
Qed.

(** With the budget [2^63 - 1] the run of [ralph.sh] never ends for the
    budget, whatever the outputs. *)
Lemma sh_never_runs_out (classify : string -> Class) (outputs : list string)
      (s : RunState) :
  in_int64 (ITERATION s) = true ->
  terminal (Machine.run classify (enter_of ralph_sh (2 ^ 63 - 1))
              (next_of ralph_sh) (2 ^ 63 - 1) outputs s)
  <> Some FailedMaxIterations.
Proof.
  revert s; induction outputs as [|o outputs IH]; intros s Hs;
    assert (E : enter_of ralph_sh (2 ^ 63 - 1) (ITERATION s) = true)
      by (cbn [enter_of]; apply test_le_spec;
          apply in_int64_spec in Hs; lia).
  - rewrite run_nil by exact E. discriminate.
  - rewrite run_cons, E.
    assert (Hafter : forall evs s',
               in_int64 (ITERATION s') = true ->
               terminal (after evs s
                           (Machine.run classify
                              (enter_of ralph_sh (2 ^ 63 - 1))
                              (next_of ralph_sh) (2 ^ 63 - 1) outputs s'))
               <> Some FailedMaxIterations).
    { intros evs s' Hs'. specialize (IH s' Hs').
      destruct (status (Machine.run classify (enter_of ralph_sh (2 ^ 63 - 1))
                          (next_of ralph_sh) (2 ^ 63 - 1) outputs s'))
        as [|code] eqn:Hst.
      - unfold terminal. cbn [after status]. rewrite Hst. discriminate.
      - rewrite terminal_after by (eapply exited_events; exact Hst).
        exact IH. }
    destruct (classify o) eqn:Ho.
    + destruct (Z.lt_ge_cases (CONSECUTIVE_ERRORS s + 1) 3) as [Hlt|Hge].
      * rewrite transition_retry by assumption. apply Hafter. exact Hs.
      * rewrite transition_abort by assumption. discriminate.
    + rewrite transition_complete by assumption. discriminate.
    + rewrite transition_next by assumption. apply Hafter.
      cbn [ITERATION next_of]. apply in_int64_wrap64.
Qed.

(** Each script is the counting machine for the budgets it can count
    to. *)
Lemma run_script_counts (sc : Script) (MAX : Z) (outputs : list string) :
  budget_counts sc MAX ->
  run_script sc MAX outputs
  = Machine.run (classification sc) (counts_up_to MAX) plus_one MAX
      outputs initial.
Proof.
  intros H. rewrite run_script_machine. destruct sc; [|reflexivity].
  cbn [budget_counts] in H. apply sh_counts; [exact H | cbn; lia].
Qed.

End CounterOfTheShell.


(** Two classifications that agree on the outputs of a run give the same
    run. *)
Lemma run_ext (c1 c2 : string -> Class) (enter : Z -> bool) (next : Z -> Z)
      (maxIterations : Z) (outputs : list string) (s : RunState) :
  Forall (fun o => c1 o = c2 o) outputs ->
  Machine.run c1 enter next maxIterations outputs s
  = Machine.run c2 enter next maxIterations outputs s.
Proof.
  intros Hall. revert s; induction Hall as [|o outputs Ho _ IH]; intros s;
    [reflexivity|].
  cbn [Machine.run]. unfold Machine.transition. rewrite Ho.
  destruct (enter _); [|reflexivity].
  destruct (c2 o); [destruct (_ >=? _)| |]; cbn; rewrite ?IH; reflexivity.
Qed.

(* ================================================================== *)
(** * The classification made by the scripts *)

Section Classification.

Lemma loop_body_machine (sc : Script) (MAX : Z) (o : string) (s : RunState) :
  loop_body_of sc MAX o s
  = Machine.transition (classification sc) (next_of sc) MAX o s.
Proof.
  destruct sc; [apply sh_loop_body_machine | apply ps1_loop_body_machine].
Qed.

(** An output with one of the strings of the connection-error signature
    takes the error branch in both scripts. *)
Lemma signature_is_error (sc : Script) (o : string) :
  matches_error_signature o -> classification sc o = TransientError.
Proof.
  intros H. destruct sc; cbn [classification].
  - unfold Sh.classify. apply sh_connection_error in H. now rewrite H.
  - unfold Ps1.classify. now rewrite (ps1_connection_error o H).
Qed.

Lemma signature_all_errors (sc : Script) (outputs : list string) :
  Forall matches_error_signature outputs ->
  Forall (fun o => classification sc o = TransientError) outputs.
Proof.
  intros H. eapply Forall_impl; [|exact H].
  intros o. apply signature_is_error.
Qed.

(** An output with the completion marker that does not take the error
    branch takes the completion branch in both scripts. *)
Lemma marker_is_completion (sc : Script) (o : string) :
  classification sc o <> TransientError ->
  has_completion_marker o ->
  classification sc o = Completion.
Proof.
  destruct sc; cbn [classification]; intros Hne Hm.
  - unfold Sh.classify in *. apply sh_completion in Hm.
    destruct (Sh.grep_q Sh.connection_error_pattern o); [congruence|].
    now rewrite Hm.
  - unfold Ps1.classify in *.
    destruct (Ps1.op_match _ Ps1.connection_error_pattern); [congruence|].
    now rewrite (ps1_completion o Hm).
Qed.

(** [ralph.sh] classifies by the signature and the marker as they are
    written: an error exactly for the outputs that contain one of the
    strings of the signature, a completion exactly for the other outputs
    that contain the marker, and a plain iteration for the rest. *)
Lemma sh_classification_spec (OUTPUT : string) :
  (Sh.classify OUTPUT = TransientError <-> matches_error_signature OUTPUT)
  /\ (Sh.classify OUTPUT = Completion <->
      ~ matches_error_signature OUTPUT /\ has_completion_marker OUTPUT)
  /\ (Sh.classify OUTPUT = ContinueLoop <->
      ~ matches_error_signature OUTPUT /\ ~ has_completion_marker OUTPUT).
Proof.
  unfold Sh.classify.
  pose proof (sh_connection_error OUTPUT) as He.
  pose proof (sh_completion OUTPUT) as Hc.
  destruct (Sh.grep_q Sh.connection_error_pattern OUTPUT);
    destruct (Sh.grep_q Sh.completion_pattern OUTPUT);
    intuition congruence.
Qed.

(** [ralph.ps1] takes the error branch exactly for the outputs that
    contain one of the strings of the signature when the case of the
    letters is ignored. *)
Lemma ps1_classification_spec (text : string) :
  Ps1.classify text = TransientError <->
  exists p, In p error_signature /\ Substring (lower p) (lower text).
Proof.
  unfold Ps1.classify.
  pose proof (op_match_contains Ps1.connection_error_pattern text eq_refl) as E.
  rewrite E. split.
  - destruct (existsb _ _) eqn:Hex.
    + intros _. apply existsb_exists in Hex as [p [Hin Hp]].
      exists p. split; [exact Hin | now apply contains_spec].
    + destruct (Ps1.op_match _ Ps1.completion_pattern); intros X;
        discriminate X.
  - intros [p [Hin Hp]].
    assert (Hex : existsb (fun p => contains (lower p) (lower text))
                          Ps1.connection_error_pattern = true).
    { apply existsb_exists. exists p. split; [exact Hin|].
      now apply contains_spec. }
    now rewrite Hex.
Qed.

(** [ralph.ps1] takes the completion branch of an output exactly when its
    completion test matches with case ignored. *)
Lemma ps1_completion_ignoring_case (text : string) :
  Ps1.op_match (Ps1.Invoke_Agent text) Ps1.completion_pattern = true
  <-> has_completion_marker_ignoring_case text.
Proof.
  rewrite op_match_contains by reflexivity.
  unfold has_completion_marker_ignoring_case.
  cbn [existsb Ps1.completion_pattern]. rewrite orb_false_r.
  apply contains_spec.
Qed.

Lemma ps1_error_ignoring_case (text : string) :
  Ps1.op_match (Ps1.Invoke_Agent text) Ps1.connection_error_pattern = true
  <-> matches_error_signature_ignoring_case text.
Proof.
  rewrite op_match_contains by reflexivity. rewrite existsb_exists.
  unfold matches_error_signature_ignoring_case.
  split; intros [p [Hin Hp]]; exists p; (split; [exact Hin|]);
    now apply contains_spec.
Qed.

(** An output without the signature, as the script reads it, goes past
    the error branch; with the marker it then takes the completion branch,
    and without the marker the loop goes on to the next iteration. *)
Lemma free_of_signature_passes (sc : Script) (o : string) :
  free_of_signature sc o -> classification sc o <> TransientError.
Proof.
  destruct sc; cbn [free_of_signature classification]; intros H Hc.
  - now apply sh_classification_spec in Hc.
  - unfold Ps1.classify in Hc.
    destruct (Ps1.op_match (Ps1.Invoke_Agent o) Ps1.connection_error_pattern)
      eqn:E.
    + now apply ps1_error_ignoring_case in E.
    + destruct (Ps1.op_match _ Ps1.completion_pattern); discriminate.
Qed.

Lemma free_is_completion (sc : Script) (o : string) :
  free_of_signature sc o -> has_completion_marker o ->
  classification sc o = Completion.
Proof.
  intros Hf Hm. apply marker_is_completion; [|exact Hm].
  now apply free_of_signature_passes.
Qed.

Lemma free_is_plain (sc : Script) (o : string) :
  free_of_signature sc o -> free_of_marker sc o ->
  classification sc o = ContinueLoop.
Proof.
  destruct sc; cbn [free_of_signature free_of_marker classification];
    intros Hs Hm.
  - now apply sh_classification_spec.
  - unfold Ps1.classify.
    destruct (Ps1.op_match (Ps1.Invoke_Agent o) Ps1.connection_error_pattern)
      eqn:E; [now apply ps1_error_ignoring_case in E|].
    destruct (Ps1.op_match (Ps1.Invoke_Agent o) Ps1.completion_pattern)
      eqn:E'; [now apply ps1_completion_ignoring_case in E'|].
    reflexivity.
Qed.

Lemma first_outputs_all (P : string -> Prop) (agent : nat -> string)
      (n : nat) :
  (forall k, P (agent k)) -> Forall P (first_outputs agent n).
Proof.
  intros H. unfold first_outputs. apply Forall_forall.
  intros o Hin. apply in_map_iff in Hin as [k [<- _]]. apply H.
Qed.

(** Where the two scripts classify the outputs alike, they run alike, for
    the budgets that [ralph.sh] can count to. *)
Lemma scripts_agree (MAX : Z) (outputs : list string) :
  MAX < 2 ^ 63 - 1 ->
  Forall (fun o => Sh.classify o = Ps1.classify o) outputs ->
  Sh.ralph MAX outputs = Ps1.ralph MAX outputs.
Proof.
  intros Hmax H. unfold Sh.ralph, Ps1.ralph.
  rewrite sh_refines_machine, ps1_refines_machine.
  rewrite sh_counts by (exact Hmax || (cbn; lia)).
  now apply run_ext.
Qed.

End Classification.

(* ================================================================== *)
(** * The embedding on concrete runs *)

Section Examples.

Local Open Scope string_scope.

Example LF_is_character_10 : nat_of_ascii LF = 10%nat.
Proof. reflexivity. Qed.

Example lines_of_three :
  lines (String "a" (String LF (String "b" (String LF EmptyString))))
  = ["a"; "b"; ""].
Proof. reflexivity. Qed.

Example lower_example : lower "Connection Refused 42" = "connection refused 42".
Proof. reflexivity. Qed.

Example grep_across_lines :
  Sh.grep_q Sh.connection_error_pattern
    (String "o" (String "k" (String LF "npm ERR! ETIMEDOUT"))) = true.
Proof. reflexivity. Qed.

(** The scenario of the design document: a budget of 5; a normal output,
    then a connection reset, then the completion marker. *)
Example scenario_of_the_design_document :
  Sh.ralph 5 ["normal text"; "read ECONNRESET"; "<promise>COMPLETE</promise>"]
  = {| events :=
         [Banner 1 5; RunAgent; Echo (IterationComplete 1); Sleep 2;
          Banner 2 5; RunAgent; Echo (ConnectionErrorDetected 1);
          Echo (WaitingBeforeRetry 10); Sleep 10;
          Banner 2 5; RunAgent; Echo (CompletedAllTasks 2 5)];
       states := [ {| ITERATION := 1; CONSECUTIVE_ERRORS := 0 |};
                   {| ITERATION := 2; CONSECUTIVE_ERRORS := 0 |};
                   {| ITERATION := 2; CONSECUTIVE_ERRORS := 1 |} ];
       final := {| ITERATION := 2; CONSECUTIVE_ERRORS := 0 |};
       status := Exited 0 |}.
Proof. reflexivity. Qed.

Example scenario_in_powershell :
  Ps1.ralph 5 ["normal text"; "read ECONNRESET"; "<promise>COMPLETE</promise>"]
  = Sh.ralph 5 ["normal text"; "read ECONNRESET"; "<promise>COMPLETE</promise>"].
Proof. reflexivity. Qed.

Example three_errors_abort :
  status (Sh.ralph 5 ["ENOTFOUND"; "ENOTFOUND"; "ENOTFOUND"; "fine"])
  = Exited 1
  /\ terminal (Sh.ralph 5 ["ENOTFOUND"; "ENOTFOUND"; "ENOTFOUND"; "fine"])
     = Some FailedTooManyErrors
  /\ invocations (Sh.ralph 5 ["ENOTFOUND"; "ENOTFOUND"; "ENOTFOUND"; "fine"])
     = 3%nat.
Proof. repeat split. Qed.

Example budget_of_two :
  terminal (Ps1.ralph 2 ["one"; "two"; "three"]) = Some FailedMaxIterations
  /\ invocations (Ps1.ralph 2 ["one"; "two"; "three"]) = 2%nat.
Proof. repeat split. Qed.

End Examples.

(* ================================================================== *)
(** * The documented properties of the loop

    In the statements below a run is [run_script sc MAX outputs], the run of
    script [sc] with iteration budget [MAX] when the successive invocations
    of the agent return [outputs].  "The driver makes invocation number
    [length pre + 1]" reads [status (run_script sc MAX pre) = AwaitingAgent].
    An output "matches the connection-error signature" when it contains one
    of its strings, letter for letter ([matches_error_signature]), and
    "contains the completion marker" likewise ([has_completion_marker]). *)

Section Properties.

Local Open Scope string_scope.

(** C1.  Completion does not always stop [ralph.ps1]: the output
    "connecterror <promise>COMPLETE</promise>" contains none of the strings
    of the connection-error signature and contains the completion marker,
    and [ralph.sh] exits with code 0 at the invocation that returns it;
    [ralph.ps1], whose match ignores the case of the letters, counts it as
    a connection error, waits and invokes the agent again. *)
Theorem ps1_retries_a_completed_output :
  ~ matches_error_signature "connecterror <promise>COMPLETE</promise>"
  /\ has_completion_marker "connecterror <promise>COMPLETE</promise>"
  /\ status (run_script ralph_ps1 5
               ["connecterror <promise>COMPLETE</promise>"]) = AwaitingAgent
  /\ final (run_script ralph_ps1 5
              ["connecterror <promise>COMPLETE</promise>"])
     = {| ITERATION := 1; CONSECUTIVE_ERRORS := 1 |}
  /\ invocations (run_script ralph_ps1 5
                    ["connecterror <promise>COMPLETE</promise>"; "working"])
     = 2%nat
  /\ status (run_script ralph_ps1 5
               ["connecterror <promise>COMPLETE</promise>"; "working"])
     = AwaitingAgent
  /\ status (run_script ralph_sh 5
               ["connecterror <promise>COMPLETE</promise>"; "working"])
     = Exited 0
  /\ invocations (run_script ralph_sh 5
                    ["connecterror <promise>COMPLETE</promise>"; "working"])
     = 1%nat.
Proof.
  destruct (sh_classification_spec "connecterror <promise>COMPLETE</promise>")
    as (_ & [H _] & _).
  destruct H as [H1 H2]; [vm_compute; reflexivity|].
  split; [exact H1|]. split; [exact H2|].
  repeat split; vm_compute; reflexivity.
Qed.

(** C2.  The error budget: three consecutive outputs that match the
    connection-error signature are never followed by a fourth invocation,
    and when the driver gets to them the consecutive-error counter reaches
    3 and the script stops in the too-many-errors state with exit code 1. *)
Theorem error_budget_enforced (sc : Script) (MAX : Z)
        (pre rest : list string) (e1 e2 e3 : string) :
  matches_error_signature e1 ->
  matches_error_signature e2 ->
  matches_error_signature e3 ->
  (invocations (run_script sc MAX (pre ++ e1 :: e2 :: e3 :: rest))
   <= List.length pre + 3)%nat
  /\ (status (run_script sc MAX pre) = AwaitingAgent ->
      status (run_script sc MAX (pre ++ e1 :: e2 :: e3 :: rest)) = Exited 1
      /\ terminal (run_script sc MAX (pre ++ e1 :: e2 :: e3 :: rest))
         = Some FailedTooManyErrors
      /\ CONSECUTIVE_ERRORS
           (final (run_script sc MAX (pre ++ e1 :: e2 :: e3 :: rest))) = 3).
Proof.
  rewrite !run_script_machine. intros H1 H2 H3.
  apply machine_error_budget; try (now apply signature_is_error).
  unfold within_budget; cbn; lia.
Qed.

Lemma error_budget_enforced_witness :
  (invocations (run_script ralph_ps1 5
      (["step one"] ++ "ETIMEDOUT" :: "ConnectError: x" :: "ENOTFOUND"
                    :: ["a fourth output"])) <= 1 + 3)%nat
  /\ status (run_script ralph_ps1 5
      (["step one"] ++ "ETIMEDOUT" :: "ConnectError: x" :: "ENOTFOUND"
                    :: ["a fourth output"])) = Exited 1.
Proof.
  destruct (error_budget_enforced ralph_ps1 5 ["step one"]
              ["a fourth output"] "ETIMEDOUT" "ConnectError: x" "ENOTFOUND")
    as (H1 & H2).
  - apply sh_connection_error. vm_compute. reflexivity.
  - apply sh_connection_error. vm_compute. reflexivity.
  - apply sh_connection_error. vm_compute. reflexivity.
  - split; [exact H1|]. apply H2. vm_compute. reflexivity.
Defined.

(** C3.  [ralph.ps1] does not match case-sensitively: an output with
    "connecterror" in small letters, which contains none of the strings of
    the signature and not the completion marker, takes its error branch
    instead of going on to the next iteration.  [ralph.sh] does classify by
    the signature as written ([sh_classification_spec]). *)
Theorem ps1_match_ignores_case :
  Ps1.classify "added a connecterror listener" = TransientError
  /\ ~ matches_error_signature "added a connecterror listener"
  /\ ~ has_completion_marker "added a connecterror listener"
  /\ Sh.classify "added a connecterror listener" = ContinueLoop.
Proof.
  split; [vm_compute; reflexivity|].
  destruct (sh_classification_spec "added a connecterror listener")
    as (_ & _ & [H _]).
  destruct H as [H1 H2]; [vm_compute; reflexivity|].
  split; [exact H1|]. split; [exact H2|]. vm_compute; reflexivity.
Qed.

(** C4.  Classification priority: an output that matches the
    connection-error signature and also contains the completion marker is
    classified as a transient error.  The pass adds one to the
    consecutive-error counter, keeps the iteration counter, and either
    retries or aborts with exit code 1; it never exits with code 0. *)
Theorem error_check_precedes_completion (sc : Script) (MAX : Z)
        (o : string) (s : RunState) :
  matches_error_signature o ->
  has_completion_marker o ->
  classification sc o = TransientError
  /\ snd (loop_body_of sc MAX o s)
     = if CONSECUTIVE_ERRORS s + 1 >=? 3
       then Exit 1 {| ITERATION := ITERATION s;
                      CONSECUTIVE_ERRORS := CONSECUTIVE_ERRORS s + 1 |}
       else Continue {| ITERATION := ITERATION s;
                        CONSECUTIVE_ERRORS := CONSECUTIVE_ERRORS s + 1 |}.
Proof.
  intros He _. pose proof (signature_is_error sc o He) as Hc.
  split; [exact Hc|].
  rewrite loop_body_machine. unfold Machine.transition, Machine.retryBudget.
  rewrite Hc. destruct (CONSECUTIVE_ERRORS s + 1 >=? 3); reflexivity.
Qed.

Lemma error_check_precedes_completion_witness :
  classification ralph_sh "ECONNRESET <promise>COMPLETE</promise>"
  = TransientError
  /\ snd (loop_body_of ralph_sh 5 "ECONNRESET <promise>COMPLETE</promise>"
            initial)
     = Continue {| ITERATION := 1; CONSECUTIVE_ERRORS := 1 |}.
Proof.
  apply (error_check_precedes_completion ralph_sh 5
           "ECONNRESET <promise>COMPLETE</promise>" initial).
  - apply sh_connection_error. vm_compute. reflexivity.
  - apply sh_completion. vm_compute. reflexivity.
Defined.

(** C5.  Transient errors do not consume the iteration budget: when the
    first [n] invocations of a run, [1 <= n < 3], all return outputs that
    match the connection-error signature, every one of them was made for
    iteration 1, and after the [n]-th the iteration counter is still 1, the
    consecutive-error counter is [n], and the driver is about to retry.
    These [n] invocations are made whenever the budget is at least 1 and is
    a number that the loop test of the script can read; with a budget of
    [2^63] or more [ralph.sh] makes no invocation at all. *)
Theorem retries_keep_iteration (sc : Script) (MAX : Z)
        (outputs : list string) :
  Forall matches_error_signature outputs ->
  (1 <= List.length outputs < 3)%nat ->
  (invocations (run_script sc MAX outputs) = List.length outputs ->
   status (run_script sc MAX outputs) = AwaitingAgent
   /\ final (run_script sc MAX outputs)
      = {| ITERATION := 1;
           CONSECUTIVE_ERRORS := Z.of_nat (List.length outputs) |}
   /\ Forall (fun s => ITERATION s = 1)
             (states (run_script sc MAX outputs)))
  /\ (1 <= MAX -> budget_fits sc MAX ->
      invocations (run_script sc MAX outputs) = List.length outputs).
Proof.
  rewrite !run_script_machine. intros Hall Hlen.
  apply (signature_all_errors sc) in Hall.
  destruct (enter_of sc MAX (ITERATION initial)) eqn:E.
  - destruct (machine_retry_same_iteration (classification sc)
                (enter_of sc MAX) (next_of sc) MAX outputs E Hall Hlen)
      as (H1 & H2 & H3 & H4).
    split; [intros _; now repeat split | intros _ _; exact H4].
  - rewrite (run_over_budget _ _ _ _ outputs initial E).
    unfold invocations. cbn [events filter is_RunAgent List.length].
    split; [intros H; exfalso; lia|].
    intros Hmax Hfit. exfalso. cbn [ITERATION initial] in E.
    destruct sc; cbn [enter_of budget_fits] in *.
    + assert (Sh.test_le 1 MAX = true) by (apply test_le_spec; lia).
      congruence.
    + unfold counts_up_to in E. apply Z.leb_gt in E. lia.
Qed.

Lemma retries_keep_iteration_witness :
  final (run_script ralph_sh 1 ["ECONNRESET"; "connection refused"])
  = {| ITERATION := 1; CONSECUTIVE_ERRORS := 2 |}.
Proof.
  destruct (retries_keep_iteration ralph_sh 1
              ["ECONNRESET"; "connection refused"]) as [H1 H2].
  - repeat constructor; apply sh_connection_error; vm_compute; reflexivity.
  - cbn. lia.
  - apply H1. apply H2; [lia | cbn; lia].
Defined.

(** C6.  The error counter of [ralph.ps1] is not always reset: after one
    connection error, the output "added a connecterror listener", which
    contains none of the strings of the connection-error signature, takes
    the counter of [ralph.ps1] to 2 where [ralph.sh] puts it back to 0; one
    more error then aborts [ralph.ps1], after a streak of two outputs that
    match the signature instead of three. *)
Theorem ps1_counts_a_plain_output_as_an_error :
  status (run_script ralph_ps1 5 ["ECONNRESET"]) = AwaitingAgent
  /\ CONSECUTIVE_ERRORS (final (run_script ralph_ps1 5 ["ECONNRESET"])) = 1
  /\ ~ matches_error_signature "added a connecterror listener"
  /\ CONSECUTIVE_ERRORS
       (final (run_script ralph_ps1 5
                 ["ECONNRESET"; "added a connecterror listener"])) = 2
  /\ terminal (run_script ralph_ps1 5
                 ["ECONNRESET"; "added a connecterror listener";
                  "ECONNRESET"]) = Some FailedTooManyErrors
  /\ CONSECUTIVE_ERRORS
       (final (run_script ralph_sh 5
                 ["ECONNRESET"; "added a connecterror listener"])) = 0
  /\ status (run_script ralph_sh 5
               ["ECONNRESET"; "added a connecterror listener";
                "ECONNRESET"]) = AwaitingAgent.
Proof.
  destruct (sh_classification_spec "added a connecterror listener")
    as (_ & _ & [H _]).
  destruct H as [H1 _]; [vm_compute; reflexivity|].
  repeat split; try (vm_compute; reflexivity). exact H1.
Qed.

(** C7.  Max-iteration termination, for the budgets that the script can
    count past: when the budget is at least 1, below [2^63 - 1] for
    [ralph.sh], and no output matches the connection-error signature or
    contains the completion marker as the script reads them, the driver
    makes exactly [MAX] invocations, one for each of the iterations
    1, 2, ..., [MAX], the counter going up by one after each, and then
    stops with exit code 1 and the max-iterations message. *)
Theorem max_iterations_exhausted (sc : Script) (MAX : Z)
        (outputs : list string) :
  1 <= MAX ->
  budget_counts sc MAX ->
  Forall (fun o => free_of_signature sc o /\ free_of_marker sc o) outputs ->
  (Z.to_nat MAX <= List.length outputs)%nat ->
  status (run_script sc MAX outputs) = Exited 1
  /\ terminal (run_script sc MAX outputs) = Some FailedMaxIterations
  /\ invocations (run_script sc MAX outputs) = Z.to_nat MAX
  /\ map ITERATION (states (run_script sc MAX outputs))
     = map (fun k => 1 + Z.of_nat k) (seq 0 (Z.to_nat MAX))
  /\ ITERATION (final (run_script sc MAX outputs)) = MAX + 1.
Proof.
  intros Hmax Hb Hall Hlen. rewrite !(run_script_counts sc MAX outputs Hb).
  apply (machine_all_continue (classification sc) MAX (Z.to_nat MAX)
           outputs initial); try assumption.
  - eapply Forall_impl; [|exact Hall]. cbn beta.
    intros o [H1 H2]. now apply free_is_plain.
  - cbn [ITERATION initial]. lia.
Qed.

Lemma max_iterations_exhausted_witness :
  status (run_script ralph_ps1 3 ["one"; "two"; "three"; "four"]) = Exited 1
  /\ invocations (run_script ralph_ps1 3 ["one"; "two"; "three"; "four"])
     = 3%nat.
Proof.
  destruct (max_iterations_exhausted ralph_ps1 3
              ["one"; "two"; "three"; "four"]) as (H1 & _ & H3 & _).
  - lia.
  - exact I.
  - repeat constructor;
      cbn [free_of_signature free_of_marker]; intros H;
      [apply ps1_error_ignoring_case in H
      |apply ps1_completion_ignoring_case in H
      |apply ps1_error_ignoring_case in H
      |apply ps1_completion_ignoring_case in H
      |apply ps1_error_ignoring_case in H
      |apply ps1_completion_ignoring_case in H
      |apply ps1_error_ignoring_case in H
      |apply ps1_completion_ignoring_case in H];
      vm_compute in H; discriminate H.
  - vm_compute. lia.
  - split; [exact H1 | exact H3].
Defined.

(** The budgets that [ralph.sh] cannot count past: with [2^63] iterations
    asked for and as many plain outputs offered, it makes no invocation
    instead of [2^63]; with [2^63 - 1] iterations asked for, it is still in
    the loop after [2^63 - 1] plain outputs. *)
Lemma sh_budget_beyond_the_counter :
  ~ matches_error_signature "working"
  /\ ~ has_completion_marker "working"
  /\ invocations
       (run_script ralph_sh (2 ^ 63)
          (first_outputs (fun _ => "working") (Z.to_nat (2 ^ 63)))) = 0%nat
  /\ Z.of_nat
       (invocations
          (run_script ralph_sh (2 ^ 63)
             (first_outputs (fun _ => "working") (Z.to_nat (2 ^ 63)))))
     <> 2 ^ 63
  /\ status
       (run_script ralph_sh (2 ^ 63 - 1)
          (first_outputs (fun _ => "working") (Z.to_nat (2 ^ 63 - 1))))
     = AwaitingAgent.
Proof.
  destruct (sh_classification_spec "working") as (_ & _ & [H _]).
  destruct H as [H1 H2]; [vm_compute; reflexivity|].
  split; [exact H1|]. split; [exact H2|].
  assert (H0 : invocations
                 (run_script ralph_sh (2 ^ 63)
                    (first_outputs (fun _ => "working")
                                   (Z.to_nat (2 ^ 63)))) = 0%nat).
  { rewrite run_script_machine.
    rewrite (sh_budget_too_large (classification ralph_sh) (2 ^ 63)
               (first_outputs (fun _ => "working") (Z.to_nat (2 ^ 63))))
      by lia.
    reflexivity. }
  split; [exact H0|]. split.
  - rewrite H0. discriminate.
  - rewrite run_script_machine.
    apply (sh_never_leaves (classification ralph_sh)
             (first_outputs (fun _ => "working") (Z.to_nat (2 ^ 63 - 1)))
             initial); [|reflexivity].
    apply (first_outputs_all
             (fun o => classification ralph_sh o = ContinueLoop)
             (fun _ => "working")).
    intros _. vm_compute. reflexivity.
Qed.

(** C8.  Backoff growth: after the [i]-th error of a streak of consecutive
    connection errors, [i] being 1 or 2, the driver sleeps 10 times [i]
    seconds and then retries. *)
Theorem backoff_is_linear (sc : Script) (MAX : Z)
        (pre streak : list string) (i : Z) :
  status (run_script sc MAX pre) = AwaitingAgent ->
  CONSECUTIVE_ERRORS (final (run_script sc MAX pre)) = 0 ->
  Forall matches_error_signature streak ->
  Z.of_nat (List.length streak) = i ->
  1 <= i <= 2 ->
  status (run_script sc MAX (pre ++ streak)) = AwaitingAgent
  /\ exists evs,
       events (run_script sc MAX (pre ++ streak))
       = (evs ++ [Echo (WaitingBeforeRetry (10 * i)); Sleep (10 * i)])%list.
Proof.
  rewrite !run_script_machine. intros Ha Hz Hall Hlen Hi.
  apply machine_backoff; try assumption.
  - unfold within_budget; cbn; lia.
  - now apply signature_all_errors.
Qed.

Lemma backoff_is_linear_witness :
  exists evs,
    events (run_script ralph_sh 5
              (["fine"] ++ ["ECONNRESET"; "ENOTFOUND"]))
    = (evs ++ [Echo (WaitingBeforeRetry (10 * 2)); Sleep (10 * 2)])%list.
Proof.
  apply (backoff_is_linear ralph_sh 5 ["fine"] ["ECONNRESET"; "ENOTFOUND"] 2).
  - vm_compute. reflexivity.
  - vm_compute. reflexivity.
  - repeat constructor; apply sh_connection_error; vm_compute; reflexivity.
  - reflexivity.
  - lia.
Defined.

(** C9.  The two scripts are not the same state machine: on the outputs
    "added a connecterror listener" and then the completion marker, with a
    budget of one iteration, [ralph.sh] counts the first output as an
    iteration and exits with code 1 after one invocation, while [ralph.ps1]
    counts it as a connection error, retries and exits with code 0.  On
    outputs that both classify alike they do run alike ([scripts_agree]). *)
Theorem scripts_diverge_on_case :
  Sh.classify "added a connecterror listener" = ContinueLoop
  /\ Ps1.classify "added a connecterror listener" = TransientError
  /\ status (Sh.ralph 1 ["added a connecterror listener";
                         "<promise>COMPLETE</promise>"]) = Exited 1
  /\ status (Ps1.ralph 1 ["added a connecterror listener";
                          "<promise>COMPLETE</promise>"]) = Exited 0
  /\ states (Sh.ralph 1 ["added a connecterror listener";
                         "<promise>COMPLETE</promise>"])
     = [ {| ITERATION := 1; CONSECUTIVE_ERRORS := 0 |} ]
  /\ states (Ps1.ralph 1 ["added a connecterror listener";
                          "<promise>COMPLETE</promise>"])
     = [ {| ITERATION := 1; CONSECUTIVE_ERRORS := 0 |};
         {| ITERATION := 1; CONSECUTIVE_ERRORS := 1 |} ].
Proof. repeat split; vm_compute; reflexivity. Qed.

(** C10.  The loop terminates, for every budget but one: with an iteration
    budget [MAX] of at least 1 that is not [2^63 - 1] for [ralph.sh], no run
    makes more than 3 times [MAX] invocations, and whatever the agent keeps
    returning, the script has exited once the first 3 times [MAX] outputs
    have been offered to it. *)
Theorem driver_terminates (sc : Script) (MAX : Z) :
  1 <= MAX ->
  (sc = ralph_sh -> MAX <> 2 ^ 63 - 1) ->
  (forall outputs,
      Z.of_nat (invocations (run_script sc MAX outputs)) <= 3 * MAX)
  /\ (forall agent : nat -> string,
      exists code,
        status (run_script sc MAX
                  (first_outputs agent (Z.to_nat (3 * MAX)))) = Exited code).
Proof.
  intros Hmax Hne.
  assert (Hb : within_budget initial) by (unfold within_budget; cbn; lia).
  assert (Hr : remaining MAX initial = 3 * MAX)
    by (unfold remaining; cbn [ITERATION CONSECUTIVE_ERRORS initial]; lia).
  assert (Hcases : budget_counts sc MAX \/ (sc = ralph_sh /\ 2 ^ 63 <= MAX)).
  { destruct sc; cbn [budget_counts]; [|left; exact I].
    specialize (Hne eq_refl).
    destruct (Z.lt_ge_cases MAX (2 ^ 63 - 1)) as [H|H];
      [left; exact H | right; split; [reflexivity | lia]]. }
  destruct Hcases as [Hc | [-> Hbig]].
  - split.
    + intros outputs. rewrite (run_script_counts sc MAX outputs Hc), <- Hr.
      now apply machine_bound.
    + intros agent. rewrite (run_script_counts sc MAX _ Hc).
      apply machine_bound; [exact Hb|].
      rewrite Hr. unfold first_outputs. rewrite length_map, length_seq. lia.
  - split.
    + intros outputs. rewrite run_script_machine.
      rewrite (sh_budget_too_large _ MAX outputs Hbig).
      unfold invocations. cbn [events filter is_RunAgent List.length]. lia.
    + intros agent. rewrite run_script_machine.
      rewrite (sh_budget_too_large _ MAX _ Hbig). now exists 1.
Qed.

Lemma driver_terminates_witness :
  exists code,
    status (run_script ralph_sh 2
              (first_outputs (fun k => if Nat.even k then "ECONNRESET"
                                       else "working")
                             (Z.to_nat (3 * 2)))) = Exited code.
Proof.
  destruct (driver_terminates ralph_sh 2) as [_ H];
    [lia | intros _; lia |].
  apply H.
Defined.

(** With the budget [2^63 - 1] and an agent that keeps working, [ralph.sh]
    is still in the loop when 3 times [2^63 - 1] outputs have been offered
    to it: the counter goes from [2^63 - 1] to [- 2^63] and the loop test
    holds again. *)
Lemma sh_loops_at_the_greatest_budget :
  1 <= 2 ^ 63 - 1
  /\ status
       (run_script ralph_sh (2 ^ 63 - 1)
          (first_outputs (fun _ => "working")
                         (Z.to_nat (3 * (2 ^ 63 - 1))))) = AwaitingAgent.
Proof.
  split; [lia|]. rewrite run_script_machine.
  apply (sh_never_leaves (classification ralph_sh)
           (first_outputs (fun _ => "working")
                          (Z.to_nat (3 * (2 ^ 63 - 1))))
           initial); [|reflexivity].
  apply (first_outputs_all
           (fun o => classification ralph_sh o = ContinueLoop)
           (fun _ => "working")).
  intros _. vm_compute. reflexivity.
Qed.

End Properties.

(* ================================================================== *)
(** * Further properties of the loop *)

Section MachineMeasures.

Variable classify : string -> Class.
Variable enter : Z -> bool.
Variable next : Z -> Z.
Variable maxIterations : Z.

Local Abbreviation transition :=
  (Machine.transition classify next maxIterations).
Local Abbreviation run := (Machine.run classify enter next maxIterations).

Lemma invocations_after (evs : list Event) (s : RunState) (r : Run) :
  filter is_RunAgent evs = [RunAgent] ->
  invocations (after evs s r) = S (invocations r).
Proof.
  intros H. unfold invocations. cbn [after events].
  now rewrite filter_app, length_app, H.
Qed.

Lemma total_sleep_app (l1 l2 : list Event) :
  total_sleep (l1 ++ l2) = total_sleep l1 + total_sleep l2.
Proof.
  induction l1 as [|e l1 IH]; [reflexivity|].
  destruct e; cbn [app total_sleep]; rewrite IH; lia.
Qed.

(** A run that ends with exit code 0 ends on an output classified as a
    completion, at the invocation that returned it. *)
Lemma machine_exit_zero (outputs : list string) (s : RunState) :
  status (run outputs s) = Exited 0 ->
  exists pre o rest,
    outputs = pre ++ o :: rest
    /\ classify o = Completion
    /\ status (run pre s) = AwaitingAgent
    /\ invocations (run outputs s) = S (List.length pre).
Proof.
  revert s; induction outputs as [|o outputs IH]; intros s.
  - cbn [Machine.run]. destruct (enter _); cbn; discriminate.
  - rewrite run_cons.
    destruct (enter (ITERATION s)) eqn:Hle; [|cbn; discriminate].
    destruct (transition_cases classify next maxIterations o s)
      as [evs Hc Hlt Hn _|evs Hc Hge Hn _|evs Hc Hn|evs Hc Hn _].
    + cbn [after status]. intros H.
      destruct (IH _ H) as (pre & o' & rest & -> & Ho & Ha & Hi).
      exists (o :: pre), o', rest. repeat split; try assumption.
      * cbn [app]. rewrite run_cons. rewrite Hle.
        rewrite transition_retry by assumption. exact Ha.
      * rewrite invocations_after by assumption. now rewrite Hi.
    + cbn [status]. discriminate.
    + intros _. exists [], o, outputs. repeat split; try assumption.
      * now rewrite run_nil.
      * unfold invocations. cbn [events]. now rewrite Hn.
    + cbn [after status]. intros H.
      destruct (IH _ H) as (pre & o' & rest & -> & Ho & Ha & Hi).
      exists (o :: pre), o', rest. repeat split; try assumption.
      * cbn [app]. rewrite run_cons. rewrite Hle.
        rewrite transition_next by assumption. exact Ha.
      * rewrite invocations_after by assumption. now rewrite Hi.
Qed.

(** One pair of counters is recorded for each invocation. *)
Lemma states_per_invocation (outputs : list string) (s : RunState) :
  List.length (states (run outputs s)) = invocations (run outputs s).
Proof.
  revert s; induction outputs as [|o outputs IH]; intros s.
  - cbn [Machine.run]. destruct (enter _); reflexivity.
  - rewrite run_cons. destruct (enter _); [|reflexivity].
    destruct (transition_cases classify next maxIterations o s)
      as [evs Hc Hlt Hn _|evs Hc Hge Hn _|evs Hc Hn|evs Hc Hn _];
      try (rewrite invocations_after by assumption; cbn [after states List.length];
           now rewrite IH);
      unfold invocations; cbn [events states]; now rewrite Hn.
Qed.

(** The error counter stays small, whatever the loop test and the counting
    of the iterations: at most 2 when the agent is invoked, at most 3 at
    the end. *)
Lemma machine_error_counter (outputs : list string) (s : RunState) :
  within_budget s ->
  Forall (fun x => 0 <= CONSECUTIVE_ERRORS x <= 2) (states (run outputs s))
  /\ 0 <= CONSECUTIVE_ERRORS (final (run outputs s)) <= 3.
Proof.
  revert s; induction outputs as [|o outputs IH]; intros s Hs;
    unfold within_budget in *.
  - cbn [Machine.run]. destruct (enter _); cbn; split; (lia || constructor).
  - rewrite run_cons.
    destruct (enter _); [|cbn; split; (lia || constructor)].
    destruct (transition_cases classify next maxIterations o s)
      as [evs Hc Hlt Hn _|evs Hc Hge Hn _|evs Hc Hn|evs Hc Hn _];
      cbn [after states final ITERATION CONSECUTIVE_ERRORS].
    + destruct (IH {| ITERATION := ITERATION s;
          CONSECUTIVE_ERRORS := CONSECUTIVE_ERRORS s + 1 |}) as (I1 & I2);
        [cbn; lia|].
      split; [constructor; [lia | exact I1] | exact I2].
    + split; [repeat constructor|]; lia.
    + split; [repeat constructor|]; lia.
    + destruct (IH {| ITERATION := next (ITERATION s);
                      CONSECUTIVE_ERRORS := 0 |}) as (I1 & I2);
        [cbn; lia|].
      split; [constructor; [lia | exact I1] | exact I2].
Qed.

End MachineMeasures.

Section CountingMeasures.

Variable classify : string -> Class.
Variable maxIterations : Z.

Local Abbreviation transition :=
  (Machine.transition classify plus_one maxIterations).
Local Abbreviation run :=
  (Machine.run classify (counts_up_to maxIterations) plus_one maxIterations).

Lemma leading_rev_snoc {A : Type} (f : A -> bool) (l : list A) (a : A) :
  leading f (rev (l ++ [a]))
  = if f a then S (leading f (rev l)) else O.
Proof. now rewrite rev_app_distr. Qed.

(** While the loop goes on, the counters are a function of the outputs
    used so far. *)
Lemma machine_counters (pre : list string) :
  status (run pre initial) = AwaitingAgent ->
  ITERATION (final (run pre initial)) = 1 + Z.of_nat (advances classify pre)
  /\ CONSECUTIVE_ERRORS (final (run pre initial))
     = Z.of_nat (trailing_errors classify pre).
Proof.
  assert (Hb : within_budget initial) by (unfold within_budget; cbn; lia).
  induction pre as [|o pre IH] using rev_ind.
  - cbn [Machine.run initial ITERATION]. unfold counts_up_to.
    destruct (1 <=? maxIterations); cbn; [intros _; split; reflexivity|].
    discriminate.
  - rewrite run_app. destruct (status (run pre initial)) eqn:Ha.
    2:{ rewrite Ha. discriminate. }
    destruct (IH eq_refl) as [Hit Hce].
    pose proof (ideal_awaiting classify maxIterations pre initial Hb Ha)
      as Hle.
    set (s1 := final (run pre initial)) in *.
    unfold advances, trailing_errors in *.
    rewrite filter_app, length_app, leading_rev_snoc. cbn [filter].
    rewrite ideal_run_cons. apply Z.leb_le in Hle as Hleb. rewrite Hleb.
    destruct (classify o) eqn:Ho; cbn [is_error is_continue List.length].
    + destruct (Z.lt_ge_cases (CONSECUTIVE_ERRORS s1 + 1) 3) as [Hlt|Hge].
      * rewrite transition_retry by assumption.
        rewrite ideal_run_nil by exact Hle.
        cbn [glue after status final ITERATION CONSECUTIVE_ERRORS].
        intros _. split; lia.
      * rewrite transition_abort by assumption. cbn. discriminate.
    + rewrite transition_complete by assumption. cbn. discriminate.
    + rewrite ideal_transition_next by assumption.
      cbn [glue after status final Machine.run ITERATION].
      unfold counts_up_to.
      destruct (ITERATION s1 + 1 <=? maxIterations);
        cbn [status final ITERATION CONSECUTIVE_ERRORS];
        [intros _; split; lia | discriminate].
Qed.

(** Retries apart, a run never makes more invocations than the budget. *)
Lemma machine_productive (outputs : list string) (s : RunState) :
  Z.of_nat (productive classify (consumed (run outputs s) outputs))
  <= Z.max 0 (maxIterations + 1 - ITERATION s).
Proof.
  revert s; induction outputs as [|o outputs IH]; intros s;
    unfold consumed, productive in *.
  - rewrite firstn_nil. cbn. lia.
  - rewrite ideal_run_cons.
    destruct (Z.leb_spec (ITERATION s) maxIterations) as [Hle|Hgt];
      [|cbn; lia].
    destruct (ideal_transition_cases classify maxIterations o s)
      as [evs Hc Hlt Hn _|evs Hc Hge Hn _|evs Hc Hn|evs Hc Hn _].
    + rewrite invocations_after by assumption. cbn [firstn filter].
      rewrite Hc. cbn [is_error negb].
      specialize (IH {| ITERATION := ITERATION s;
        CONSECUTIVE_ERRORS := CONSECUTIVE_ERRORS s + 1 |}).
      cbn [ITERATION] in IH. exact IH.
    + unfold invocations. cbn [events]. rewrite Hn. cbn [List.length firstn filter].
      rewrite Hc. cbn. lia.
    + unfold invocations. cbn [events]. rewrite Hn. cbn [List.length firstn filter].
      rewrite Hc. cbn [is_error negb List.length]. lia.
    + rewrite invocations_after by assumption. cbn [firstn filter].
      rewrite Hc. cbn [is_error negb List.length].
      specialize (IH {| ITERATION := ITERATION s + 1;
                        CONSECUTIVE_ERRORS := 0 |}).
      cbn [ITERATION] in IH. lia.
Qed.

(** The time slept is bounded: at most 32 seconds for each iteration left,
    less the backoff already slept in the current streak of errors. *)
Lemma machine_sleep (outputs : list string) (s : RunState) :
  within_budget s ->
  total_sleep (events (run outputs s))
  <= Z.max 0 (32 * (maxIterations + 1 - ITERATION s)
              - backoff_spent (CONSECUTIVE_ERRORS s)).
Proof.
  revert s; induction outputs as [|o outputs IH]; intros s Hs;
    unfold within_budget, backoff_spent in *.
  - cbn [Machine.run]. unfold counts_up_to. destruct (_ <=? _); cbn; lia.
  - rewrite ideal_run_cons.
    destruct (Z.leb_spec (ITERATION s) maxIterations) as [Hle|Hgt];
      [|cbn; lia].
    assert (Hcase : CONSECUTIVE_ERRORS s = 0 \/ CONSECUTIVE_ERRORS s = 1
                    \/ CONSECUTIVE_ERRORS s = 2) by lia.
    destruct (classify o) eqn:Ho.
    + destruct (Z.lt_ge_cases (CONSECUTIVE_ERRORS s + 1) 3) as [Hlt|Hge].
      * rewrite transition_retry by assumption.
        cbn [after events]. rewrite total_sleep_app.
        specialize (IH {| ITERATION := ITERATION s;
          CONSECUTIVE_ERRORS := CONSECUTIVE_ERRORS s + 1 |}).
        cbn [ITERATION CONSECUTIVE_ERRORS total_sleep] in *.
        assert (Hb : 0 <= CONSECUTIVE_ERRORS s + 1 <= 2) by lia.
        specialize (IH Hb).
        destruct Hcase as [C|[C|C]]; rewrite C in *; lia.
      * rewrite transition_abort by assumption. cbn [events total_sleep].
        destruct Hcase as [C|[C|C]]; rewrite C in *; lia.
    + rewrite transition_complete by assumption. cbn [events total_sleep].
      destruct Hcase as [C|[C|C]]; rewrite C in *; lia.
    + rewrite ideal_transition_next by assumption.
      cbn [after events]. rewrite total_sleep_app.
      specialize (IH {| ITERATION := ITERATION s + 1;
                        CONSECUTIVE_ERRORS := 0 |}).
      cbn [ITERATION CONSECUTIVE_ERRORS total_sleep] in *.
      assert (Hb : 0 <= 0 <= 2) by lia. specialize (IH Hb).
      destruct Hcase as [C|[C|C]]; rewrite C in *; lia.
Qed.

End CountingMeasures.

Section LoopOfTheScripts.

Local Open Scope string_scope.

(** Exit code 0 means completion: a run of either script that ends with
    exit code 0 ends at an invocation whose output the script classified as
    a completion, and that invocation was the last. *)
Theorem exit_zero_only_on_completion (sc : Script) (MAX : Z)
        (outputs : list string) :
  status (run_script sc MAX outputs) = Exited 0 ->
  exists pre o rest,
    outputs = (pre ++ o :: rest)%list
    /\ classification sc o = Completion
    /\ status (run_script sc MAX pre) = AwaitingAgent
    /\ invocations (run_script sc MAX outputs) = S (List.length pre).
Proof.
  rewrite run_script_machine. intros H.
  destruct (machine_exit_zero _ _ _ _ _ _ H)
    as (pre & o & rest & E & Ho & Ha & Hi).
  exists pre, o, rest. rewrite run_script_machine. now repeat split.
Qed.

Lemma exit_zero_only_on_completion_witness :
  exists pre o rest,
    ["ok"; "<promise>COMPLETE</promise>"; "later"] = (pre ++ o :: rest)%list
    /\ classification ralph_sh o = Completion
    /\ status (run_script ralph_sh 3 pre) = AwaitingAgent
    /\ invocations
         (run_script ralph_sh 3 ["ok"; "<promise>COMPLETE</promise>"; "later"])
       = S (List.length pre).
Proof.
  apply (exit_zero_only_on_completion ralph_sh 3
           ["ok"; "<promise>COMPLETE</promise>"; "later"]).
  vm_compute. reflexivity.
Defined.

(** While the loop goes on, the iteration counter is one more than the
    number of outputs classified as plain iterations so far, and the
    consecutive-error counter is the length of the streak of errors at the
    end of the outputs so far; for [ralph.sh] this is so for the budgets
    below [2^63 - 1], which the counter can pass without wrapping. *)
Theorem counters_follow_outputs (sc : Script) (MAX : Z) (pre : list string) :
  budget_counts sc MAX ->
  status (run_script sc MAX pre) = AwaitingAgent ->
  ITERATION (final (run_script sc MAX pre))
  = 1 + Z.of_nat (advances (classification sc) pre)
  /\ CONSECUTIVE_ERRORS (final (run_script sc MAX pre))
     = Z.of_nat (trailing_errors (classification sc) pre).
Proof.
  intros Hb. rewrite (run_script_counts sc MAX pre Hb).
  apply machine_counters.
Qed.

Lemma counters_follow_outputs_witness :
  ITERATION (final (run_script ralph_ps1 9
                      ["a"; "ETIMEDOUT"; "b"; "ENOTFOUND"; "ENOTFOUND"]))
  = 1 + Z.of_nat 2
  /\ CONSECUTIVE_ERRORS (final (run_script ralph_ps1 9
                      ["a"; "ETIMEDOUT"; "b"; "ENOTFOUND"; "ENOTFOUND"]))
     = Z.of_nat 2.
Proof.
  apply (counters_follow_outputs ralph_ps1 9
           ["a"; "ETIMEDOUT"; "b"; "ENOTFOUND"; "ENOTFOUND"]).
  - exact I.
  - vm_compute. reflexivity.
Defined.

(** Retries do not count, and nothing else escapes the budget: among the
    outputs that a run has used, those that were not classified as
    connection errors are never more than the iteration budget, when the
    budget is one that the script can count past. *)
Theorem productive_invocations_within_budget (sc : Script) (MAX : Z)
        (outputs : list string) :
  budget_counts sc MAX ->
  Z.of_nat (productive (classification sc)
              (consumed (run_script sc MAX outputs) outputs))
  <= Z.max 0 MAX.
Proof.
  intros Hb. rewrite (run_script_counts sc MAX outputs Hb).
  pose proof (machine_productive (classification sc) MAX outputs initial) as H.
  cbn [ITERATION initial] in H. lia.
Qed.

Lemma productive_invocations_within_budget_witness :
  Z.of_nat (productive (classification ralph_sh)
              (consumed (run_script ralph_sh 2
                           ["ETIMEDOUT"; "one"; "ENOTFOUND"; "two"; "three"])
                        ["ETIMEDOUT"; "one"; "ENOTFOUND"; "two"; "three"]))
  <= Z.max 0 2.
Proof.
  apply (productive_invocations_within_budget ralph_sh 2
           ["ETIMEDOUT"; "one"; "ENOTFOUND"; "two"; "three"]).
  cbn. lia.
Defined.

(** With a budget that it can count past, the script never sleeps more
    than 32 seconds for each iteration of the budget: two backoffs of 10 and
    20 seconds and the pause of 2 seconds. *)
Theorem sleep_within_budget (sc : Script) (MAX : Z) (outputs : list string) :
  budget_counts sc MAX ->
  total_sleep (events (run_script sc MAX outputs)) <= Z.max 0 (32 * MAX).
Proof.
  intros Hb. rewrite (run_script_counts sc MAX outputs Hb).
  pose proof (machine_sleep (classification sc) MAX outputs initial) as H.
  unfold within_budget, backoff_spent in H.
  cbn [ITERATION CONSECUTIVE_ERRORS initial] in H. lia.
Qed.

Lemma sleep_within_budget_witness :
  total_sleep (events (run_script ralph_sh 1
                         ["ETIMEDOUT"; "ENOTFOUND"; "one"; "two"]))
  <= Z.max 0 (32 * 1).
Proof.
  apply (sleep_within_budget ralph_sh 1
           ["ETIMEDOUT"; "ENOTFOUND"; "one"; "two"]).
  cbn. lia.
Defined.

(** With a budget that the script can count past, every invocation of the
    agent is made for an iteration between 1 and the budget, with at most
    two errors pending, and the counters stop at most one above the budget
    and at three errors. *)
Theorem passes_within_budget (sc : Script) (MAX : Z) (outputs : list string) :
  budget_counts sc MAX ->
  Forall (fun x => 1 <= ITERATION x <= MAX
                   /\ 0 <= CONSECUTIVE_ERRORS x <= 2)
         (states (run_script sc MAX outputs))
  /\ List.length (states (run_script sc MAX outputs))
     = invocations (run_script sc MAX outputs)
  /\ 1 <= ITERATION (final (run_script sc MAX outputs)) <= Z.max 1 (MAX + 1)
  /\ 0 <= CONSECUTIVE_ERRORS (final (run_script sc MAX outputs)) <= 3.
Proof.
  intros Hb. rewrite (run_script_counts sc MAX outputs Hb).
  split; [|split; [apply states_per_invocation|]].
  - destruct (Z.lt_ge_cases MAX 1) as [Hlt|Hge].
    + rewrite ideal_run_over_budget by (cbn; lia). constructor.
    + apply counters_bounded; [unfold within_budget|]; cbn; lia.
  - destruct (Z.lt_ge_cases MAX 1) as [Hlt|Hge].
    + rewrite ideal_run_over_budget by (cbn; lia). cbn. lia.
    + destruct (counters_bounded (classification sc) MAX outputs initial)
        as (_ & H1 & H2); [unfold within_budget; cbn; lia | cbn; lia |].
      lia.
Qed.

Lemma passes_within_budget_witness :
  List.length (states (run_script ralph_sh 2 ["one"; "ETIMEDOUT"; "two"]))
  = invocations (run_script ralph_sh 2 ["one"; "ETIMEDOUT"; "two"]).
Proof.
  apply (passes_within_budget ralph_sh 2 ["one"; "ETIMEDOUT"; "two"]).
  cbn. lia.
Defined.

(** [ralph.sh] classifies case-sensitively, and the lines of the output do
    not matter: an error exactly for the outputs that contain one of the
    strings of the signature, a completion exactly for the other outputs
    that contain the marker, a plain iteration for the rest. *)
Theorem sh_classifies_by_signature (OUTPUT : string) :
  (Sh.classify OUTPUT = TransientError <-> matches_error_signature OUTPUT)
  /\ (Sh.classify OUTPUT = Completion <->
      ~ matches_error_signature OUTPUT /\ has_completion_marker OUTPUT)
  /\ (Sh.classify OUTPUT = ContinueLoop <->
      ~ matches_error_signature OUTPUT /\ ~ has_completion_marker OUTPUT).
Proof.
  unfold Sh.classify.
  pose proof (sh_connection_error OUTPUT) as He.
  pose proof (sh_completion OUTPUT) as Hc.
  destruct (Sh.grep_q Sh.connection_error_pattern OUTPUT);
    destruct (Sh.grep_q Sh.completion_pattern OUTPUT);
    intuition congruence.
Qed.

(** [ralph.ps1] classifies with the case of the letters ignored, for the
    signature and for the marker alike. *)
Theorem ps1_classifies_ignoring_case (text : string) :
  (Ps1.classify text = TransientError
   <-> matches_error_signature_ignoring_case text)
  /\ (Ps1.classify text = Completion <->
      ~ matches_error_signature_ignoring_case text
      /\ has_completion_marker_ignoring_case text)
  /\ (Ps1.classify text = ContinueLoop <->
      ~ matches_error_signature_ignoring_case text
      /\ ~ has_completion_marker_ignoring_case text).
Proof.
  unfold Ps1.classify.
  pose proof (ps1_error_ignoring_case text) as He.
  pose proof (ps1_completion_ignoring_case text) as Hc.
  destruct (Ps1.op_match (Ps1.Invoke_Agent text) Ps1.connection_error_pattern);
    destruct (Ps1.op_match (Ps1.Invoke_Agent text) Ps1.completion_pattern);
    intuition congruence.
Qed.

(** What [ralph.sh] takes for a connection error, [ralph.ps1] does too; what
    [ralph.ps1] takes for a plain iteration, [ralph.sh] does too. *)
Theorem ps1_matches_whatever_sh_matches (o : string) :
  (Sh.classify o = TransientError -> Ps1.classify o = TransientError)
  /\ (Ps1.classify o = ContinueLoop -> Sh.classify o = ContinueLoop).
Proof.
  pose proof (sh_classification_spec o) as (S1 & S2 & S3).
  split.
  - intros H. apply S1 in H. exact (signature_is_error ralph_ps1 o H).
  - intros H. apply S3. split.
    + intros Hm. pose proof (signature_is_error ralph_ps1 o Hm) as E.
      cbn [classification] in E. congruence.
    + intros Hm. unfold Ps1.classify in H.
      rewrite (ps1_completion o Hm) in H.
      destruct (Ps1.op_match _ Ps1.connection_error_pattern); discriminate.
Qed.

Lemma ps1_matches_whatever_sh_matches_witness :
  Ps1.classify "npm ERR! ECONNRESET" = TransientError.
Proof.
  apply (ps1_matches_whatever_sh_matches "npm ERR! ECONNRESET").
  vm_compute. reflexivity.
Defined.

(** The two loops differ through their matchers only: on outputs that both
    classify alike, the runs of [ralph.sh] and [ralph.ps1] are the same,
    event for event, for every budget below [2^63 - 1]; these include all
    the budgets that the 32-bit parameter of [ralph.ps1] can hold. *)
Theorem scripts_run_alike (MAX : Z) (outputs : list string) :
  MAX < 2 ^ 63 - 1 ->
  Forall (fun o => Sh.classify o = Ps1.classify o) outputs ->
  run_script ralph_sh MAX outputs = run_script ralph_ps1 MAX outputs.
Proof.
  intros Hmax H.
  rewrite (run_script_counts ralph_sh MAX outputs Hmax).
  rewrite (run_script_counts ralph_ps1 MAX outputs I).
  now apply run_ext.
Qed.

Lemma scripts_run_alike_witness :
  run_script ralph_sh 4 ["one"; "ENOTFOUND"; "<promise>COMPLETE</promise>"]
  = run_script ralph_ps1 4 ["one"; "ENOTFOUND"; "<promise>COMPLETE</promise>"].
Proof.
  apply (scripts_run_alike 4 ["one"; "ENOTFOUND"; "<promise>COMPLETE</promise>"]).
  - lia.
  - repeat constructor.
Defined.

(** Completion stops the run: when the driver makes an invocation whose
    output is free of the connection-error signature as the script reads it
    (letter for letter in [ralph.sh], whatever the case of the letters in
    [ralph.ps1]) and contains the completion marker, that invocation is the
    last one, whatever outputs would follow and whatever is left of the
    iteration budget, and the script exits with code 0. *)
Theorem completed_output_stops_the_run (sc : Script) (MAX : Z)
        (pre rest : list string) (o : string) :
  status (run_script sc MAX pre) = AwaitingAgent ->
  free_of_signature sc o ->
  has_completion_marker o ->
  status (run_script sc MAX (pre ++ o :: rest)) = Exited 0
  /\ terminal (run_script sc MAX (pre ++ o :: rest)) = Some Succeeded
  /\ invocations (run_script sc MAX (pre ++ o :: rest)) = S (List.length pre)
  /\ ITERATION (final (run_script sc MAX pre)) <= MAX.
Proof.
  rewrite !run_script_machine. intros Ha Hf Hm.
  assert (Hb : within_budget initial) by (unfold within_budget; cbn; lia).
  pose proof (free_is_completion sc o Hf Hm) as Hc.
  destruct (machine_completion (classification sc) (enter_of sc MAX)
              (next_of sc) MAX pre rest o initial Hb Ha Hc)
    as (H1 & H2 & H3 & _).
  destruct (awaiting_final (classification sc) (enter_of sc MAX) (next_of sc)
              MAX pre initial Hb Ha) as (_ & Hle & _).
  repeat split; try assumption.
  destruct sc; cbn [enter_of] in Hle.
  - now apply test_le_spec in Hle.
  - unfold counts_up_to in Hle. now apply Z.leb_le in Hle.
Qed.

Lemma completed_output_stops_the_run_witness :
  status (run_script ralph_ps1 5
            (["Working on US-001"; "read ECONNRESET"]
             ++ "All done <promise>COMPLETE</promise>" :: ["never seen"]))
  = Exited 0
  /\ invocations (run_script ralph_ps1 5
            (["Working on US-001"; "read ECONNRESET"]
             ++ "All done <promise>COMPLETE</promise>" :: ["never seen"]))
     = 3%nat.
Proof.
  destruct (completed_output_stops_the_run ralph_ps1 5
              ["Working on US-001"; "read ECONNRESET"] ["never seen"]
              "All done <promise>COMPLETE</promise>") as (H1 & _ & H3 & _).
  - vm_compute. reflexivity.
  - cbn [free_of_signature]. intros H.
    apply ps1_error_ignoring_case in H. vm_compute in H. discriminate H.
  - apply sh_completion. vm_compute. reflexivity.
  - split; [exact H1 | exact H3].
Defined.

(** The error counter resets: in a state of the loop reached with 1 or 2
    consecutive errors, an invocation whose output is free of the
    connection-error signature as the script reads it puts the counter back
    to 0; and if the run later aborts for too many errors, three outputs in
    a row among the later ones took the error branch, the abort coming
    right after the third. *)
Theorem plain_output_resets_the_counter (sc : Script) (MAX : Z)
        (pre : list string) (o : string) :
  status (run_script sc MAX pre) = AwaitingAgent ->
  CONSECUTIVE_ERRORS (final (run_script sc MAX pre)) = 1
  \/ CONSECUTIVE_ERRORS (final (run_script sc MAX pre)) = 2 ->
  free_of_signature sc o ->
  CONSECUTIVE_ERRORS (final (run_script sc MAX (pre ++ [o]))) = 0
  /\ forall rest,
       terminal (run_script sc MAX (pre ++ o :: rest))
       = Some FailedTooManyErrors ->
       exists mid e1 e2 e3 tail,
         rest = (mid ++ e1 :: e2 :: e3 :: tail)%list
         /\ classification sc e1 = TransientError
         /\ classification sc e2 = TransientError
         /\ classification sc e3 = TransientError
         /\ invocations (run_script sc MAX (pre ++ o :: rest))
            = (List.length pre + 1 + List.length mid + 3)%nat.
Proof.
  rewrite !run_script_machine. intros Ha _ Hf.
  apply free_of_signature_passes in Hf.
  assert (Hb : within_budget initial) by (unfold within_budget; cbn; lia).
  split.
  - now apply machine_reset.
  - intros rest. rewrite run_script_machine.
    now apply machine_streak_after_reset.
Qed.

Lemma plain_output_resets_the_counter_witness :
  CONSECUTIVE_ERRORS
    (final (run_script ralph_ps1 5 (["ETIMEDOUT"; "ETIMEDOUT"] ++ ["fine"])))
  = 0.
Proof.
  apply (plain_output_resets_the_counter ralph_ps1 5
           ["ETIMEDOUT"; "ETIMEDOUT"] "fine").
  - vm_compute. reflexivity.
  - right. vm_compute. reflexivity.
  - cbn [free_of_signature]. intros H.
    apply ps1_error_ignoring_case in H. vm_compute in H. discriminate H.
Defined.

(** In both scripts and for every budget, at most two errors are pending
    when the agent is invoked, and the consecutive-error counter ends at 3
    at most. *)
Theorem error_counter_within_three (sc : Script) (MAX : Z)
        (outputs : list string) :
  Forall (fun x => 0 <= CONSECUTIVE_ERRORS x <= 2)
         (states (run_script sc MAX outputs))
  /\ 0 <= CONSECUTIVE_ERRORS (final (run_script sc MAX outputs)) <= 3.
Proof.
  rewrite run_script_machine. apply machine_error_counter.
  unfold within_budget; cbn; lia.
Qed.

(** With an iteration budget of [2^63 - 1], [ralph.sh] never stops for the
    budget: the counter wraps from [2^63 - 1] to [- 2^63] and the loop test
    holds again, so no run ends with the max-iterations message. *)
Theorem sh_greatest_budget_never_runs_out (outputs : list string) :
  terminal (run_script ralph_sh (2 ^ 63 - 1) outputs)
  <> Some FailedMaxIterations.
Proof.
  rewrite run_script_machine. apply sh_never_runs_out. reflexivity.
Qed.

End LoopOfTheScripts.

(* ================================================================== *)
(** * The start of ralph.sh *)

Section StartOfTheScript.

Local Open Scope string_scope.

Import ShStart.

Lemma parse_cons (word : string) (rest : list string) (o : Options) :
  parse_arguments (word :: rest) o =
  if is_worker_flag word then
    match rest with
    | [] => Stopped 1 []
    | value :: rest' =>
        parse_arguments rest'
          {| WORKER := value; MAX_ITERATIONS := MAX_ITERATIONS o |}
    end
  else if is_help_flag word then Stopped 0 [Usage]
  else if is_number word then
    parse_arguments rest {| WORKER := WORKER o; MAX_ITERATIONS := word |}
  else Stopped 1 [UnknownOption word].
Proof. reflexivity. Qed.

Lemma number_not_flag (word : string) :
  is_number word = true ->
  is_worker_flag word = false /\ is_help_flag word = false.
Proof.
  intros H. unfold is_worker_flag, is_help_flag.
  destruct (String.eqb_spec word "--worker") as [->|_]; [discriminate H|].
  destruct (String.eqb_spec word "-w") as [->|_]; [discriminate H|].
  destruct (String.eqb_spec word "--help") as [->|_]; [discriminate H|].
  destruct (String.eqb_spec word "-h") as [->|_]; [discriminate H|].
  split; reflexivity.
Qed.

(** A well-formed beginning of the command line is read item by item. *)
Lemma parse_items (items : list Item) (rest : list string) (o : Options) :
  forallb well_formed items = true ->
  parse_arguments (flat_map words items ++ rest) o
  = parse_arguments rest (fold_left set_option items o).
Proof.
  revert o; induction items as [|i items IH]; intros o Hwf; [reflexivity|].
  cbn [forallb] in Hwf. apply andb_true_iff in Hwf as [Hi Hwf].
  destruct i as [digits|flag value]; cbn [flat_map words app fold_left well_formed] in *.
  - rewrite parse_cons. destruct (number_not_flag digits Hi) as [-> ->].
    rewrite Hi. now apply IH.
  - rewrite parse_cons, Hi. now apply IH.
Qed.

(** Every command line splits into a well-formed beginning and the first
    word, if any, at which the loop stops. *)
Lemma parse_stops (n : nat) (args : list string) (o : Options) :
  (List.length args <= n)%nat ->
  exists items rest,
    forallb well_formed items = true
    /\ args = (flat_map words items ++ rest)%list
    /\ match rest with
       | [] => True
       | word :: after =>
           (is_worker_flag word = true /\ after = [])
           \/ is_help_flag word = true /\ is_worker_flag word = false
           \/ (is_worker_flag word = false /\ is_help_flag word = false
               /\ is_number word = false)
       end.
Proof.
  revert args o; induction n as [|n IH]; intros args o Hlen.
  - destruct args; [|cbn in Hlen; lia]. now exists [], [].
  - destruct args as [|word args]; [now exists [], []|].
    cbn [List.length] in Hlen.
    destruct (is_worker_flag word) eqn:Hw.
    + destruct args as [|value args].
      * exists [], [word]. repeat split. left. now split.
      * cbn [List.length] in Hlen.
        destruct (IH args o) as (items & rest & Hwf & -> & Hrest); [lia|].
        exists (WorkerFlag word value :: items), rest.
        cbn [forallb well_formed flat_map words app]. rewrite Hw, Hwf.
        repeat split. exact Hrest.
    + destruct (is_help_flag word) eqn:Hh.
      * exists [], (word :: args). repeat split. right. left. now split.
      * destruct (is_number word) eqn:Hn.
        -- destruct (IH args o) as (items & rest & Hwf & -> & Hrest); [lia|].
           exists (Count word :: items), rest.
           cbn [forallb well_formed flat_map words app]. rewrite Hn, Hwf.
           repeat split. exact Hrest.
        -- exists [], (word :: args). repeat split. right. right.
           now repeat split.
Qed.

Lemma fold_keeps_number (items : list Item) (o : Options) :
  forallb well_formed items = true ->
  is_number (MAX_ITERATIONS o) = true ->
  is_number (MAX_ITERATIONS (fold_left set_option items o)) = true.
Proof.
  revert o; induction items as [|i items IH]; intros o Hwf Ho; [exact Ho|].
  cbn [forallb] in Hwf. apply andb_true_iff in Hwf as [Hi Hwf].
  cbn [fold_left]. apply IH; [exact Hwf|].
  destruct i; cbn [set_option MAX_ITERATIONS well_formed] in *; assumption.
Qed.

(** The command lines that get past the argument loop are those made of
    iteration counts and of worker flags each followed by a word, in any
    order and number; the last count and the last worker are the ones
    used. *)
Theorem accepted_command_lines (args : list string) (o o' : Options) :
  parse_arguments args o = Going o' <->
  exists items,
    forallb well_formed items = true
    /\ args = flat_map words items
    /\ o' = fold_left set_option items o.
Proof.
  split.
  - intros H.
    destruct (parse_stops (List.length args) args o (le_n _))
      as (items & rest & Hwf & -> & Hrest).
    rewrite parse_items in H by exact Hwf.
    destruct rest as [|word after].
    + cbn in H. injection H as <-. exists items.
      now rewrite app_nil_r.
    + rewrite parse_cons in H.
      destruct Hrest as [[Hw ->]|[[Hh Hw]|(Hw & Hh & Hn)]].
      * rewrite Hw in H. discriminate H.
      * rewrite Hw, Hh in H. discriminate H.
      * rewrite Hw, Hh, Hn in H. discriminate H.
  - intros (items & Hwf & -> & ->).
    rewrite <- (app_nil_r (flat_map words items)).
    now rewrite parse_items.
Qed.

(** After the argument loop [MAX_ITERATIONS] is a number: digits only, and
    at least one. *)
Theorem max_iterations_is_a_number (args : list string) (o : Options) :
  parse_arguments args defaults = Going o ->
  is_number (MAX_ITERATIONS o) = true.
Proof.
  intros H.
  destruct (parse_stops (List.length args) args defaults (le_n _))
    as (items & rest & Hwf & -> & Hrest).
  rewrite parse_items in H by exact Hwf.
  destruct rest as [|word after].
  - cbn in H. injection H as <-. now apply fold_keeps_number.
  - rewrite parse_cons in H.
    destruct Hrest as [[Hw ->]|[[Hh Hw]|(Hw & Hh & Hn)]].
    + rewrite Hw in H. discriminate H.
    + rewrite Hw, Hh in H. discriminate H.
    + rewrite Hw, Hh, Hn in H. discriminate H.
Qed.

Lemma max_iterations_is_a_number_witness :
  is_number "25" = true.
Proof.
  apply (max_iterations_is_a_number ["-w"; "amp"; "7"; "25"]
           {| WORKER := "amp"; MAX_ITERATIONS := "25" |}).
  reflexivity.
Defined.

(** A worker flag that ends the command line makes the script exit with
    status 1 without a message, and this is the only way it stops before
    the loop without printing anything. *)
Theorem missing_worker_value_exits_silently (cv : string -> bool)
        (args : list string) (code : Z) :
  startup cv args = Stopped code [] <->
  code = 1
  /\ exists items flag,
       forallb well_formed items = true
       /\ is_worker_flag flag = true
       /\ args = (flat_map words items ++ [flag])%list.
Proof.
  unfold startup. split.
  - intros H.
    destruct (parse_stops (List.length args) args defaults (le_n _))
      as (items & rest & Hwf & -> & Hrest).
    rewrite parse_items in H by exact Hwf.
    destruct rest as [|word after].
    + cbn [parse_arguments] in H. unfold worker_configuration in H.
      repeat match type of H with
             | context [if ?b then _ else _] => destruct b
             end; discriminate H.
    + rewrite parse_cons in H.
      destruct Hrest as [[Hw ->]|[[Hh Hw]|(Hw & Hh & Hn)]].
      * rewrite Hw in H. injection H as <-. split; [reflexivity|].
        now exists items, word.
      * rewrite Hw, Hh in H. discriminate H.
      * rewrite Hw, Hh, Hn in H. discriminate H.
  - intros (-> & items & flag & Hwf & Hf & ->).
    rewrite parse_items by exact Hwf. rewrite parse_cons, Hf. reflexivity.
Qed.

(** The script exits with status 0 before the loop only for a help flag
    that comes after a well-formed beginning; the words after it are not
    looked at. *)
Theorem help_is_the_only_early_success (cv : string -> bool)
        (args : list string) (printed : list Notice) :
  startup cv args = Stopped 0 printed <->
  printed = [Usage]
  /\ exists items flag rest,
       forallb well_formed items = true
       /\ is_help_flag flag = true
       /\ is_worker_flag flag = false
       /\ args = (flat_map words items ++ flag :: rest)%list.
Proof.
  unfold startup. split.
  - intros H.
    destruct (parse_stops (List.length args) args defaults (le_n _))
      as (items & rest & Hwf & -> & Hrest).
    rewrite parse_items in H by exact Hwf.
    destruct rest as [|word after].
    + cbn [parse_arguments] in H. unfold worker_configuration in H.
      repeat match type of H with
             | context [if ?b then _ else _] => destruct b
             end; discriminate H.
    + rewrite parse_cons in H.
      destruct Hrest as [[Hw ->]|[[Hh Hw]|(Hw & Hh & Hn)]].
      * rewrite Hw in H. discriminate H.
      * rewrite Hw, Hh in H. injection H as <-. split; [reflexivity|].
        now exists items, word, after.
      * rewrite Hw, Hh, Hn in H. discriminate H.
  - intros (-> & items & flag & rest & Hwf & Hh & Hw & ->).
    rewrite parse_items by exact Hwf. rewrite parse_cons, Hw, Hh. reflexivity.
Qed.


Lemma accepted_command_lines_witness :
  parse_arguments ["20"; "-w"; "amp"; "5"] defaults
  = Going {| WORKER := "amp"; MAX_ITERATIONS := "5" |}.
Proof.
  apply (accepted_command_lines ["20"; "-w"; "amp"; "5"] defaults
           {| WORKER := "amp"; MAX_ITERATIONS := "5" |}).
  exists [Count "20"; WorkerFlag "-w" "amp"; Count "5"].
  repeat split.
Defined.

Lemma missing_worker_value_exits_silently_witness :
  startup (fun _ => true) ["12"; "--worker"] = Stopped 1 [].
Proof.
  apply (missing_worker_value_exits_silently (fun _ => true)
           ["12"; "--worker"] 1).
  split; [reflexivity|].
  exists [Count "12"], "--worker". repeat split.
Defined.

Lemma help_is_the_only_early_success_witness :
  startup (fun _ => false) ["-w"; "nobody"; "--help"; "not a number"]
  = Stopped 0 [Usage].
Proof.
  apply (help_is_the_only_early_success (fun _ => false)
           ["-w"; "nobody"; "--help"; "not a number"] [Usage]).
  split; [reflexivity|].
  exists [WorkerFlag "-w" "nobody"], "--help", ["not a number"].
  repeat split.
Defined.


End StartOfTheScript.

(* ================================================================== *)
(** * The project directory *)

Section ProjectDirectory.

Import ShProject.

Variable prd_json_in : Path -> bool.

Lemma parent_S (k : nat) (p : Path) :
  parent (S k) p = parent k (dirname p).
Proof. unfold parent. now rewrite Nat.iter_succ_r. Qed.

Lemma dirname_root : dirname [] = [].
Proof. reflexivity. Qed.

Lemma parent_root (k : nat) : parent k [] = [].
Proof.
  induction k as [|k IH]; [reflexivity|].
  now rewrite parent_S, dirname_root.
Qed.

Lemma length_removelast (p : Path) :
  List.length (removelast p) = Nat.pred (List.length p).
Proof.
  induction p as [|a [|b p] IH]; [reflexivity..|].
  cbn [removelast List.length Nat.pred] in *. now rewrite IH.
Qed.

Lemma length_substituted (p : Path) :
  (List.length (substituted p) <= List.length p)%nat.
Proof.
  unfold substituted. destruct p as [|a p]; [reflexivity|].
  pose proof (length_removelast (a :: p)) as H.
  cbn [List.length Nat.pred] in H.
  destruct (ShArchive.command_substitution _).
  - rewrite H. cbn [List.length]. lia.
  - rewrite length_app, H. cbn [List.length]. lia.
Qed.

(** Each step of the search goes up: the parent is a shorter path. *)
Lemma dirname_shorter (p : Path) :
  p <> [] -> (List.length (dirname p) < List.length p)%nat.
Proof.
  intros Hp. unfold dirname.
  pose proof (length_substituted (removelast p)) as H.
  rewrite length_removelast in H.
  destruct p as [|a p]; [contradiction|]. cbn [List.length Nat.pred] in *.
  lia.
Qed.

Lemma search_found (tries k : nat) (SCRIPT_DIR p : Path) :
  (k < tries)%nat ->
  prd_json_in (parent k p) = true ->
  (forall j, (j < k)%nat -> prd_json_in (parent j p) = false) ->
  search tries prd_json_in SCRIPT_DIR p = parent k p.
Proof.
  revert k p; induction tries as [|tries IH]; intros k p Hk Hf Hnot;
    [lia|].
  cbn [search]. destruct k as [|k].
  - cbn in Hf. now rewrite Hf.
  - pose proof (Hnot 0%nat ltac:(lia)) as H0.
    change (parent 0 p) with p in H0. rewrite H0.
    destruct p as [|a p].
    + rewrite parent_root in Hf. congruence.
    + rewrite parent_S in *. apply IH; try lia; try assumption.
      intros j Hj. rewrite <- parent_S. apply Hnot. lia.
Qed.

Lemma search_not_found (tries : nat) (SCRIPT_DIR p : Path) :
  (forall j, (j < tries)%nat -> prd_json_in (parent j p) = false) ->
  search tries prd_json_in SCRIPT_DIR p
  = match tries with
    | O => p
    | S last_try =>
        match parent last_try p with
        | [] => SCRIPT_DIR
        | _ :: _ => parent tries p
        end
    end.
Proof.
  revert p; induction tries as [|tries IH]; intros p Hnot; [reflexivity|].
  cbn [search].
  pose proof (Hnot 0%nat ltac:(lia)) as H0.
  change (parent 0 p) with p in H0. rewrite H0.
  destruct p as [|a p]; [now rewrite parent_root|].
  rewrite IH.
  - destruct tries as [|last_try]; [reflexivity|].
    now rewrite <- !parent_S.
  - intros j Hj. rewrite <- parent_S. apply Hnot. lia.
Qed.

(** The project directory is the nearest of the script's directory and its
    first three parents that holds a [prd.json], the parents being those
    that [dirname] and the command substitution give. *)
Theorem project_root_is_the_nearest (SCRIPT_DIR : Path) (k : nat) :
  (k <= 3)%nat ->
  prd_json_in (parent k SCRIPT_DIR) = true ->
  (forall j, (j < k)%nat -> prd_json_in (parent j SCRIPT_DIR) = false) ->
  PROJECT_ROOT prd_json_in SCRIPT_DIR = parent k SCRIPT_DIR.
Proof.
  intros Hk Hf Hnot. unfold PROJECT_ROOT.
  apply search_found; try assumption. lia.
Qed.

(** When neither the script's directory nor any of its first three parents
    holds a [prd.json], the project directory is the script's directory if
    the search came to [/], and otherwise the fourth parent, where no
    [prd.json] was looked for. *)
Theorem project_root_without_prd (SCRIPT_DIR : Path) :
  (forall j, (j <= 3)%nat -> prd_json_in (parent j SCRIPT_DIR) = false) ->
  PROJECT_ROOT prd_json_in SCRIPT_DIR
  = match parent 3 SCRIPT_DIR with
    | [] => SCRIPT_DIR
    | _ :: _ => parent 4 SCRIPT_DIR
    end.
Proof.
  intros Hnot. unfold PROJECT_ROOT. rewrite search_not_found; [reflexivity|].
  intros j Hj. apply Hnot. lia.
Qed.

End ProjectDirectory.

Section ProjectDirectoryWitnesses.

Import ShProject.
Local Open Scope string_scope.

(** A script two levels below a directory whose name ends with a line
    feed: the search reads the name without the line feed and looks in the
    directory beside it; a [prd.json] in the directory with the line feed
    is not found, and the search ends at [/]. *)
Example project_root_below_a_line_feed :
  parent 2 ["home"; String "m" (String "e" (String LF EmptyString));
            "app"; "scripts"]
  = ["home"; "me"]
  /\ PROJECT_ROOT
       (fun d => match d with ["home"; "me"] => true | _ => false end)
       ["home"; String "m" (String "e" (String LF EmptyString));
        "app"; "scripts"]
     = ["home"; "me"]
  /\ PROJECT_ROOT
       (fun d =>
          match d with
          | ["home"; String "m" (String "e" (String c EmptyString))] =>
              Ascii.eqb c LF
          | _ => false
          end)
       ["home"; String "m" (String "e" (String LF EmptyString));
        "app"; "scripts"]
     = [].
Proof. repeat split. Qed.

Lemma project_root_is_the_nearest_witness :
  PROJECT_ROOT (fun d => match d with ["home"; "me"] => true | _ => false end)
               ["home"; "me"; "app"; "scripts"]
  = ["home"; "me"].
Proof.
  apply (project_root_is_the_nearest
           (fun d => match d with ["home"; "me"] => true | _ => false end)
           ["home"; "me"; "app"; "scripts"] 2).
  - lia.
  - reflexivity.
  - intros [|[|j]] Hj; [reflexivity | reflexivity | lia].
Defined.

Lemma project_root_without_prd_witness :
  PROJECT_ROOT (fun _ => false) ["a"; "b"; "c"; "d"; "e"] = ["a"].
Proof.
  apply (project_root_without_prd (fun _ => false) ["a"; "b"; "c"; "d"; "e"]).
  reflexivity.
Defined.

End ProjectDirectoryWitnesses.

(* ================================================================== *)
(** * The archive, [.last-branch] and [progress.txt] *)

Section ArchiveOfRuns.

Import ShArchive.
Local Open Scope string_scope.

Lemma substitution_drops_last_newline (s : string) :
  command_substitution (s ++ String LF "") = command_substitution s.
Proof.
  induction s as [|c s IH]; [reflexivity|].
  cbn [append command_substitution]. now rewrite IH.
Qed.

Lemma substitution_cons (c : ascii) (rest : string) :
  command_substitution (String c rest) =
  match command_substitution rest with
  | EmptyString => if Ascii.eqb c LF then EmptyString else String c EmptyString
  | String _ _ as kept => String c kept
  end.
Proof. reflexivity. Qed.

Lemma substitution_idempotent (s : string) :
  command_substitution (command_substitution s) = command_substitution s.
Proof.
  induction s as [|c s IH]; [reflexivity|].
  rewrite substitution_cons.
  destruct (command_substitution s) as [|k kept] eqn:E.
  - destruct (Ascii.eqb c LF) eqn:Hc; [reflexivity|].
    rewrite substitution_cons. cbn [command_substitution]. now rewrite Hc.
  - rewrite substitution_cons. now rewrite IH.
Qed.

Lemma substitution_one_line (s : string) :
  one_line s = true -> command_substitution s = s.
Proof.
  induction s as [|c s IH]; [reflexivity|].
  cbn [one_line command_substitution]. intros H.
  apply andb_true_iff in H as [Hc Hs]. apply negb_true_iff in Hc.
  rewrite (IH Hs). destruct s; [now rewrite Hc | reflexivity].
Qed.

Lemma substitution_of_echo (word : string) :
  command_substitution (echo word)
  = if is_echo_option word then "" else command_substitution word.
Proof.
  unfold echo. destruct (is_echo_option word).
  - destruct (contains "n" word); reflexivity.
  - apply substitution_drops_last_newline.
Qed.

Lemma lines_one_line (s : string) :
  one_line s = true -> lines (s ++ String LF "") = [s; ""].
Proof.
  induction s as [|c s IH]; [reflexivity|].
  cbn [one_line append lines]. intros H.
  apply andb_true_iff in H as [Hc Hs]. apply negb_true_iff in Hc.
  now rewrite Hc, (IH Hs).
Qed.

Lemma one_line_drop (n : nat) (s : string) :
  one_line s = true -> one_line (drop n s) = true.
Proof.
  revert s; induction n as [|n IH]; intros s H; [exact H|].
  destruct s as [|c s]; [reflexivity|].
  cbn [drop]. apply IH. cbn [one_line] in H.
  now apply andb_true_iff in H as [_ H].
Qed.

(** What one run writes to [.last-branch], the next run reads back: the
    branch name of [prd.json], unless the [echo] builtin takes that name for
    one of its options. *)
Theorem last_branch_round_trip (fs : Files) (prd : PrdFile) :
  prd_json fs = Some prd ->
  nonempty (command_substitution (jq_branchName prd)) = true ->
  is_echo_option (command_substitution (jq_branchName prd)) = false ->
  exists content,
    last_branch_file (track_current_branch fs) = Some content
    /\ command_substitution content = command_substitution (jq_branchName prd).
Proof.
  intros Hp Hn He. unfold track_current_branch. rewrite Hp, Hn.
  eexists. split; [reflexivity|].
  rewrite substitution_of_echo, He. apply substitution_idempotent.
Qed.

Lemma last_branch_round_trip_witness :
  exists content,
    last_branch_file
      (track_current_branch
         {| prd_json := Some {| prd_text := "{}";
                                jq_branchName := String.append "ralph/login"
                                                   (String LF "") |};
            last_branch_file := None;
            progress_txt := None |}) = Some content
    /\ command_substitution content
       = command_substitution (String.append "ralph/login" (String LF "")).
Proof.
  apply (last_branch_round_trip
           {| prd_json := Some {| prd_text := "{}";
                                  jq_branchName := String.append "ralph/login"
                                                     (String LF "") |};
              last_branch_file := None;
              progress_txt := None |}
           {| prd_text := "{}";
              jq_branchName := String.append "ralph/login" (String LF "") |});
    reflexivity.
Defined.

Lemma archive_keeps_files (ARCHIVE_DIR DATE now WORKER_NAME : string)
      (fs : Files) :
  let fs1 := fst (archive_previous_run ARCHIVE_DIR DATE now WORKER_NAME fs) in
  prd_json fs1 = prd_json fs
  /\ last_branch_file fs1 = last_branch_file fs
  /\ (progress_txt fs = None \/ exists log, progress_txt fs1 = Some log).
Proof.
  unfold archive_previous_run.
  destruct (prd_json fs) as [prd|] eqn:Hp;
    [destruct (last_branch_file fs) as [last|] eqn:Hl|].
  - destruct (_ && _)%bool; cbn [fst prd_json last_branch_file progress_txt].
    + repeat split; eauto.
    + rewrite Hp, Hl. repeat split.
      destruct (progress_txt fs); eauto.
  - cbn [fst]. rewrite Hp, Hl. repeat split.
    destruct (progress_txt fs); eauto.
  - cbn [fst]. rewrite Hp. repeat split.
    destruct (progress_txt fs); eauto.
Qed.

Lemma track_keeps_files (fs : Files) :
  prd_json (track_current_branch fs) = prd_json fs
  /\ progress_txt (track_current_branch fs) = progress_txt fs
  /\ last_branch_file (track_current_branch fs)
     = match prd_json fs with
       | Some prd =>
           if nonempty (command_substitution (jq_branchName prd))
           then Some (echo (command_substitution (jq_branchName prd)))
           else last_branch_file fs
       | None => last_branch_file fs
       end.
Proof.
  unfold track_current_branch.
  destruct (prd_json fs) as [prd|] eqn:Hp; [|now rewrite Hp].
  destruct (nonempty _); cbn [prd_json last_branch_file progress_txt];
    rewrite ?Hp; repeat split.
Qed.

Lemma initialize_keeps_files (now WORKER_NAME : string) (fs : Files) :
  prd_json (initialize_progress now WORKER_NAME fs) = prd_json fs
  /\ last_branch_file (initialize_progress now WORKER_NAME fs)
     = last_branch_file fs
  /\ exists log, progress_txt (initialize_progress now WORKER_NAME fs) = Some log.
Proof.
  unfold initialize_progress.
  destruct (progress_txt fs) as [log|] eqn:Hlog;
    cbn [prd_json last_branch_file progress_txt]; repeat split; eauto.
Qed.

(** The files after lines 239-279. *)
Lemma bookkeeping_files (ARCHIVE_DIR DATE now WORKER_NAME : string)
      (fs : Files) :
  let fs1 := fst (bookkeeping ARCHIVE_DIR DATE now WORKER_NAME fs) in
  prd_json fs1 = prd_json fs
  /\ (exists log, progress_txt fs1 = Some log)
  /\ last_branch_file fs1
     = match prd_json fs with
       | Some prd =>
           if nonempty (command_substitution (jq_branchName prd))
           then Some (echo (command_substitution (jq_branchName prd)))
           else last_branch_file fs
       | None => last_branch_file fs
       end.
Proof.
  unfold bookkeeping.
  pose proof (archive_keeps_files ARCHIVE_DIR DATE now WORKER_NAME fs)
    as (A1 & A2 & _).
  destruct (archive_previous_run ARCHIVE_DIR DATE now WORKER_NAME fs)
    as [fs1 done]. cbn [fst] in *.
  destruct (track_keeps_files fs1) as (T1 & T2 & T3).
  destruct (initialize_keeps_files now WORKER_NAME (track_current_branch fs1))
    as (I1 & I2 & I3).
  repeat split.
  - now rewrite I1, T1.
  - exact I3.
  - now rewrite I2, T3, A1, A2.
Qed.

(** Starting the script again with the same [prd.json] archives nothing and
    leaves [.last-branch] and [progress.txt] as they are. *)
Theorem restart_archives_nothing
        (ARCHIVE_DIR DATE now WORKER_NAME : string)
        (ARCHIVE_DIR' DATE' now' WORKER_NAME' : string) (fs : Files) :
  bookkeeping ARCHIVE_DIR' DATE' now' WORKER_NAME'
    (fst (bookkeeping ARCHIVE_DIR DATE now WORKER_NAME fs))
  = (fst (bookkeeping ARCHIVE_DIR DATE now WORKER_NAME fs), []).
Proof.
  destruct (bookkeeping_files ARCHIVE_DIR DATE now WORKER_NAME fs)
    as (Hprd & [log Hlog] & Hlast).
  set (fs1 := fst (bookkeeping ARCHIVE_DIR DATE now WORKER_NAME fs)) in *.
  destruct fs1 as [prd1 last1 log1]. cbn [prd_json last_branch_file progress_txt] in *.
  subst prd1 log1.
  unfold bookkeeping, archive_previous_run, track_current_branch,
    initialize_progress.
  cbn [prd_json last_branch_file progress_txt].
  destruct (prd_json fs) as [prd|]; [|reflexivity].
  destruct (nonempty (command_substitution (jq_branchName prd))) eqn:Hn.
  - subst last1. rewrite substitution_of_echo.
    destruct (is_echo_option (command_substitution (jq_branchName prd))).
    + cbn [nonempty andb]. cbn [prd_json last_branch_file progress_txt].
      now rewrite Hn.
    + rewrite substitution_idempotent, String.eqb_refl, andb_false_r.
      cbn [prd_json last_branch_file progress_txt]. now rewrite Hn.
  - destruct last1 as [last|]; cbn [andb];
      cbn [prd_json last_branch_file progress_txt]; now rewrite Hn.
Qed.

(** A progress log is never lost: whenever the script starts a new
    [progress.txt] over an old one, the old one has been copied to the
    archive. *)
Theorem progress_archived_before_reset
        (ARCHIVE_DIR DATE now WORKER_NAME : string) (fs : Files)
        (log : string) :
  progress_txt fs = Some log ->
  progress_txt (fst (bookkeeping ARCHIVE_DIR DATE now WORKER_NAME fs))
  = Some log
  \/ exists folder prd,
       snd (bookkeeping ARCHIVE_DIR DATE now WORKER_NAME fs)
       = [Archived folder prd (Some log)].
Proof.
  intros Hlog.
  assert (Hkept : progress_txt
                    (initialize_progress now WORKER_NAME
                       (track_current_branch fs)) = Some log).
  { destruct (track_keeps_files fs) as (_ & T2 & _).
    unfold initialize_progress. rewrite T2, Hlog. now rewrite T2. }
  unfold bookkeeping, archive_previous_run.
  destruct (prd_json fs) as [prd|]; [|left; exact Hkept].
  destruct (last_branch_file fs) as [last|]; [|left; exact Hkept].
  destruct (_ && _)%bool; [|left; exact Hkept].
  right. cbn [snd]. rewrite Hlog. eauto.
Qed.

Lemma progress_archived_before_reset_witness :
  exists folder prd,
    snd (bookkeeping "/p/archive" "2026-01-31" "now" "Amp"
           {| prd_json := Some {| prd_text := "{new}";
                                  jq_branchName := "ralph/new" |};
              last_branch_file := Some "ralph/old";
              progress_txt := Some "old log" |})
    = [Archived folder prd (Some "old log")].
Proof.
  destruct (progress_archived_before_reset "/p/archive" "2026-01-31" "now" "Amp"
              {| prd_json := Some {| prd_text := "{new}";
                                     jq_branchName := "ralph/new" |};
                 last_branch_file := Some "ralph/old";
                 progress_txt := Some "old log" |} "old log" eq_refl)
    as [H|H].
  - vm_compute in H. discriminate H.
  - exact H.
Defined.

(** The name of the archive folder: the previous branch without a leading
    [ralph/], for a branch name of one line. *)
Lemma folder_name_of_branch (LAST_BRANCH : string) :
  one_line LAST_BRANCH = true ->
  is_echo_option LAST_BRANCH = false ->
  FOLDER_NAME LAST_BRANCH = strip_prefix "ralph/" LAST_BRANCH.
Proof.
  intros H1 He. unfold FOLDER_NAME, sed_strip_ralph, echo. rewrite He.
  rewrite (lines_one_line _ H1). cbn [map unlines].
  change (strip_prefix "ralph/" "") with "".
  change (String LF (unlines [""])) with (String LF "").
  rewrite substitution_drops_last_newline. apply substitution_one_line.
  unfold strip_prefix. destruct (is_prefix "ralph/" LAST_BRANCH);
    [now apply one_line_drop | exact H1].
Qed.

(** When [prd.json] names another branch than [.last-branch], the script
    makes one archive folder, named by the date and the previous branch
    without its [ralph/]; the folder gets the [prd.json] of the moment,
    which is the one that names the new branch, and the previous
    [progress.txt]; and [progress.txt] starts again. *)
Theorem archive_on_branch_change
        (ARCHIVE_DIR DATE now WORKER_NAME : string) (fs : Files)
        (prd : PrdFile) (last : string) :
  prd_json fs = Some prd ->
  last_branch_file fs = Some last ->
  nonempty (command_substitution (jq_branchName prd)) = true ->
  nonempty (command_substitution last) = true ->
  command_substitution (jq_branchName prd) <> command_substitution last ->
  one_line (command_substitution last) = true ->
  is_echo_option (command_substitution last) = false ->
  archive_previous_run ARCHIVE_DIR DATE now WORKER_NAME fs
  = ({| prd_json := Some prd;
        last_branch_file := Some last;
        progress_txt := Some (progress_header now WORKER_NAME) |},
     [Archived (ARCHIVE_DIR ++ "/" ++ DATE ++ "-"
                ++ strip_prefix "ralph/" (command_substitution last))
               (prd_text prd) (progress_txt fs)]).
Proof.
  intros Hp Hl Hc Hn Hne H1 He. unfold archive_previous_run.
  rewrite Hp, Hl, Hc, Hn. apply String.eqb_neq in Hne. rewrite Hne.
  cbn [andb negb]. now rewrite folder_name_of_branch.
Qed.

Lemma archive_on_branch_change_witness :
  snd (archive_previous_run "/p/archive" "2026-01-31" "now" "Amp"
         {| prd_json := Some {| prd_text := "{new}";
                                jq_branchName := "ralph/new" |};
            last_branch_file := Some "ralph/old";
            progress_txt := Some "old log" |})
  = [Archived "/p/archive/2026-01-31-old" "{new}" (Some "old log")].
Proof.
  rewrite (archive_on_branch_change "/p/archive" "2026-01-31" "now" "Amp"
             {| prd_json := Some {| prd_text := "{new}";
                                    jq_branchName := "ralph/new" |};
                last_branch_file := Some "ralph/old";
                progress_txt := Some "old log" |}
             {| prd_text := "{new}"; jq_branchName := "ralph/new" |}
             "ralph/old"); try reflexivity.
  vm_compute. discriminate.
Defined.

End ArchiveOfRuns.

(* ================================================================== *)
(** * The counters and the machine integers *)

Section MachineIntegers.

(** No overflow: for an iteration budget below [2^63 - 1], every sum and
    product that a pass of the loop computes from its counters has the same
    value in bash's 64-bit arithmetic as on the integers. *)
Theorem no_overflow_in_64_bits (sc : Script) (MAX : Z)
        (outputs : list string) :
  1 <= MAX < 2 ^ 63 - 1 ->
  Forall (fun x =>
            wrap64 (ITERATION x + 1) = ITERATION x + 1
            /\ wrap64 (CONSECUTIVE_ERRORS x + 1) = CONSECUTIVE_ERRORS x + 1
            /\ wrap64 (10 * (CONSECUTIVE_ERRORS x + 1))
               = 10 * (CONSECUTIVE_ERRORS x + 1))
         (states (run_script sc MAX outputs)).
Proof.
  intros H.
  assert (Hb : budget_counts sc MAX) by (destruct sc; cbn; (lia || exact I)).
  rewrite (run_script_counts sc MAX outputs Hb). now apply arithmetic_in_range.
Qed.

Lemma no_overflow_in_64_bits_witness :
  Forall (fun x =>
            wrap64 (ITERATION x + 1) = ITERATION x + 1
            /\ wrap64 (CONSECUTIVE_ERRORS x + 1) = CONSECUTIVE_ERRORS x + 1
            /\ wrap64 (10 * (CONSECUTIVE_ERRORS x + 1))
               = 10 * (CONSECUTIVE_ERRORS x + 1))
         (states (run_script ralph_sh 1000000
                    ["ok"%string; "ETIMEDOUT"%string; "ok"%string])).
Proof.
  apply (no_overflow_in_64_bits ralph_sh 1000000
           ["ok"%string; "ETIMEDOUT"%string; "ok"%string]).
  lia.
Defined.

End MachineIntegers.
